(** * The reader-driven PCM player of the audio driver

    A shallow embedding of the player state machine found in the second
    document of [src/exp/textinput/textinput_js.go] (package
    [readerdriver]): [playerImpl] with its operations [playImpl],
    [pauseImpl], [resetImpl], [closeImpl], [setErrorImpl], [addBuffer],
    [shouldWait], [wait] and [loop], together with the registry of the
    [context] and one pass of the loop of the write callback.

    Conventions.
    - [float32] values are IEEE 754 binary32 numbers, computed with the
      parametric operations of [SpecFloat] at precision 24; [float64] is
      binary64.  Both round to nearest, ties to even, as Go does; every
      operation is rounded on its own.  (Go lets an implementation fuse
      [x*y + z] into one rounding; the values of mixed samples are those
      of the evaluation that does not.)
    - Go's [int] is modelled by [nat] for lengths, indices and
      [bitDepthInBytes], which are never negative in a context that plays,
      and by [Z] for the other fields of the context.
    - Every section of code that runs while the player's mutex is held is
      one function on the player record.  [sync.Cond.Signal], [Lock] and
      [Unlock] do not change the data and are left out.  The fill loop is
      cut at the places where it does not hold the mutex.
    - There are two step functions.  In [exec] a call of [Play] or
      [Close], and the store of the loop, is one step: the hand-over of
      the mutex inside [playImpl] and [closeImpl] around the registry
      calls is not a scheduling point.  In [fineExec] it is one: a call
      that has given the mutex up waits as a continuation, and any other
      step may come first.  Every step of [exec] is a run of [fineExec]
      ([exec_fineRun]); the invariant that ties a recorded error to the
      Closed state is stated over [fineExec]. *)

From Stdlib Require Import ZArith List Bool Lia Strings.Byte SpecFloat.
From stdpp Require Import base option list gmap.

Set Default Proof Using "Type".

(** ** Machine integers *)

Module GoInt.

(** Wrap-around of [uint8] arithmetic. *)
Definition uint8 (z : Z) : Z := (z mod 256)%Z.

(** Wrap-around of [int16] arithmetic. *)
Definition int16 (z : Z) : Z := ((z + 32768) mod 65536 - 32768)%Z.

(** The numeric value of a [byte]. *)
Definition byteZ (b : byte) : Z := Z.of_N (Byte.to_N b).

(** The byte with a given value (taken modulo 256). *)
Definition Zbyte (z : Z) : byte :=
  match Byte.of_N (Z.to_N (uint8 z)) with
  | Some b => b
  | None => x00
  end.

End GoInt.

(** ** Floating point *)

Module Float.

Definition float32 : Type := spec_float.
Definition float64 : Type := spec_float.

Definition prec32 : Z := 24.
Definition emax32 : Z := 128.
Definition prec64 : Z := 53.
Definition emax64 : Z := 1024.

(** Conversion of an integer, [float32(z)]. *)
Definition f32_of_Z (z : Z) : float32 := binary_normalize prec32 emax32 z 0 false.
Definition f64_of_Z (z : Z) : float64 := binary_normalize prec64 emax64 z 0 false.

Definition f32add : float32 -> float32 -> float32 := SFadd prec32 emax32.
Definition f32mul : float32 -> float32 -> float32 := SFmul prec32 emax32.
Definition f32div : float32 -> float32 -> float32 := SFdiv prec32 emax32.
Definition f32ltb : float32 -> float32 -> bool := SFltb.
Definition f32leb : float32 -> float32 -> bool := SFleb.

(** [float32(x)] for a [float64] [x]: rounding to the narrower format. *)
Definition f32_of_f64 (x : float64) : float32 :=
  match x with
  | S754_finite s m e => binary_round prec32 emax32 s m e
  | _ => x
  end.

(** The zero value of a [float32] variable. *)
Definition f32zero : float32 := S754_zero false.

(** [z / 2^k] as a [float32], for the constants of the tests. *)
Definition f32_dyadic (z : Z) (k : Z) : float32 :=
  binary_normalize prec32 emax32 z (- k) false.

End Float.

Import GoInt Float.

(** ** Data *)

(** Modelled from the spec: the declaration of [playerState] is not in the
    source, which only uses its three constants; the spec lists the states
    Paused (initial), Playing and Closed (terminal). *)
Inductive playerState : Type :=
  | playerPaused
  | playerPlay
  | playerClosed.

#[global] Instance playerState_eq_dec : EqDecision playerState.
Proof. solve_decision. Defined.

(** Go's [error] values that a [Read] can return: the distinguished
    [io.EOF] and any other error, identified by a number. *)
Inductive error : Type :=
  | io_EOF
  | read_failure (code : nat).

#[global] Instance error_eq_dec : EqDecision error.
Proof. solve_decision. Defined.

(** [io.Reader].  [Read s cap] is [src.Read(buf)] for a [buf] of length
    [cap]: the bytes written to the front of [buf] (their number is the
    [n] of the source), the error, and the reader afterwards.  The
    contract [0 <= n <= len(buf)] of [io.Reader] is part of the interface;
    a reader breaking it makes [buf[:n]] panic. *)
Class Reader (S : Type) : Type := {
  Read : S -> nat -> list byte * option error * S;
  Read_len : forall s cap, length (Read s cap).1.1 <= cap
}.

(** The address of a [playerImpl], the key of the registry. *)
Definition ptr : Type := nat.

Record context : Type := mkContext {
  sampleRate : Z;
  channelNum : Z;
  bitDepthInBytes : nat;
  players : gset ptr
}.

Record playerImpl (Src : Type) : Type := mkPlayer {
  src : Src;
  volume : float64;
  err : option error;
  state : playerState;
  buf : list byte;
  hasLoop : bool
}.

Arguments mkPlayer {Src}.
Arguments src {Src}.
Arguments volume {Src}.
Arguments err {Src}.
Arguments state {Src}.
Arguments buf {Src}.
Arguments hasLoop {Src}.

(** ** The registry of the context *)

Definition addPlayer (c : context) (player : ptr) : context :=
  mkContext (sampleRate c) (channelNum c) (bitDepthInBytes c) ({[player]} ∪ players c).

Definition removePlayer (c : context) (player : ptr) : context :=
  mkContext (sampleRate c) (channelNum c) (bitDepthInBytes c) (players c ∖ {[player]}).

(** ** The sample converter of [addBuffer] *)

Definition byteAt (b : list byte) (i : nat) : Z := byteZ (nth i b x00).

(** The body of the [switch] in [addBuffer]: the value [v] of sample [i].
    In the one-byte case [v8-(1<<7)] is a [uint8] subtraction. *)
Definition sample (depth : nat) (b : list byte) (i : nat) : float32 :=
  match depth with
  | 1 =>
      let v8 := byteAt b i in
      f32div (f32_of_Z (uint8 (v8 - 128))) (f32_of_Z 128)
  | 2 =>
      let v16 := Z.lor (int16 (byteAt b (2 * i)))
                       (int16 (Z.shiftl (int16 (byteAt b (2 * i + 1))) 8)) in
      f32div (f32_of_Z v16) (f32_of_Z 32768)
  | _ => f32zero
  end.

(** [buf[i] += v * volume] for [i] from [i] to [i + k - 1]. *)
Fixpoint mixLoop (depth : nat) (b : list byte) (vol : float32)
    (i k : nat) (out : list float32) : list float32 :=
  match k with
  | 0 => out
  | S k' =>
      mixLoop depth b vol (S i) k'
        (alter (fun x => f32add x (f32mul (sample depth b i) vol)) i out)
  end.

(** [err != nil && err != io.EOF] *)
Definition isFailure (e : option error) : bool :=
  match e with
  | Some e0 => negb (bool_decide (e0 = io_EOF))
  | None => false
  end.

Section Player.

Context {Src : Type} `{Reader Src}.

(** Modelled from the spec: [context.maxBufferSize()] is called by the
    source but not defined in it; the spec makes it a constant of the
    context, so it is a parameter here. *)
Variable maxBufferSize : nat.

Definition setState (st : playerState) (p : playerImpl Src) : playerImpl Src :=
  mkPlayer (src p) (volume p) (err p) st (buf p) (hasLoop p).

Definition setBuf (b : list byte) (p : playerImpl Src) : playerImpl Src :=
  mkPlayer (src p) (volume p) (err p) (state p) b (hasLoop p).

Definition setSrc (s : Src) (p : playerImpl Src) : playerImpl Src :=
  mkPlayer s (volume p) (err p) (state p) (buf p) (hasLoop p).

Definition setErr (e : option error) (p : playerImpl Src) : playerImpl Src :=
  mkPlayer (src p) (volume p) e (state p) (buf p) (hasLoop p).

Definition setHasLoop (h : bool) (p : playerImpl Src) : playerImpl Src :=
  mkPlayer (src p) (volume p) (err p) (state p) (buf p) h.

(** [NewPlayer]: every field but [src] and [volume] has its zero value. *)
Definition NewPlayer (s : Src) : playerImpl Src :=
  mkPlayer s (f64_of_Z 1) None playerPaused [] false.

Definition Err (p : playerImpl Src) : option error := err p.
Definition IsPlaying (p : playerImpl Src) : bool := bool_decide (state p = playerPlay).
Definition Volume (p : playerImpl Src) : float64 := volume p.
Definition UnplayedBufferSize (p : playerImpl Src) : nat := length (buf p).

Definition SetVolume (v : float64) (p : playerImpl Src) : playerImpl Src :=
  mkPlayer (src p) v (err p) (state p) (buf p) (hasLoop p).

(** [addBuffer]: the result is the player, the destination and the
    returned count; [None] is the division by zero of a context whose
    [bitDepthInBytes] is 0. *)
Definition addBuffer (c : context) (p : playerImpl Src) (out : list float32)
    : option (playerImpl Src * list float32 * nat) :=
  if negb (bool_decide (state p = playerPlay)) then Some (p, out, 0)
  else
    let depth := bitDepthInBytes c in
    if Nat.eqb depth 0 then None
    else
      let n := length (buf p) / depth in
      let n := if Nat.ltb (length out) n then length out else n in
      let vol := f32_of_f64 (volume p) in
      let out' := mixLoop depth (buf p) vol 0 n out in
      Some (setBuf (drop (n * depth) (buf p)) p, out', n).

(** ** The control operations, each run with the mutex held *)

Definition pauseImpl (p : playerImpl Src) : playerImpl Src :=
  if bool_decide (state p ≠ playerPlay) then p
  else setState playerPaused p.

Definition resetImpl (p : playerImpl Src) : playerImpl Src :=
  if bool_decide (state p = playerClosed) then p
  else setBuf [] (setState playerPaused p).

(** [closeImpl] with the value it returns. *)
Definition closeImpl (self : ptr) (c : context) (p : playerImpl Src)
    : context * playerImpl Src * option error :=
  let c' := removePlayer c self in
  if bool_decide (state p = playerClosed) then (c', p, None)
  else (c', setBuf [] (setState playerClosed p), err p).

Definition setErrorImpl (self : ptr) (c : context) (e : option error)
    (p : playerImpl Src) : context * playerImpl Src :=
  (closeImpl self c (setErr e p)).1.

(** How the [for] loop of [playImpl] ends: by its condition or its
    [break], or at a [Read] that failed (with the error returned). *)
Inductive fillResult : Type :=
  | Filled (p : playerImpl Src)
  | Failed (e : option error) (p : playerImpl Src).

(** The [for] loop of [playImpl].  A reader may return [0, nil] for
    ever, so the loop is run with fuel: one unit for each [Read]. *)
Fixpoint fillLoop (fuel : nat) (p : playerImpl Src) : option fillResult :=
  if Nat.ltb (length (buf p)) maxBufferSize then
    match fuel with
    | 0 => None
    | S fuel' =>
        let '(data, e, s') := Read (src p) maxBufferSize in
        let p1 := setSrc s' p in
        if isFailure e then Some (Failed e p1)
        else
          let p2 := setBuf (buf p1 ++ data) p1 in
          if bool_decide (e = Some io_EOF) then Some (Filled p2)
          else fillLoop fuel' p2
    end
  else Some (Filled p).

(** [playImpl].  [go p.loop()] shows as [hasLoop] turning true. *)
Definition playImpl (fuel : nat) (self : ptr) (c : context) (p : playerImpl Src)
    : option (context * playerImpl Src) :=
  if bool_decide (err p ≠ None) then Some (c, p)
  else if bool_decide (state p ≠ playerPaused) then Some (c, p)
  else
    match fillLoop fuel p with
    | None => None
    | Some (Failed e p1) => Some (setErrorImpl self c e p1)
    | Some (Filled p1) =>
        let p2 := setState playerPlay p1 in
        let c' := addPlayer c self in
        Some (c', if hasLoop p2 then p2 else setHasLoop true p2)
    end.

(** ** The fill loop *)

Definition shouldWait (p : playerImpl Src) : bool :=
  match state p with
  | playerPaused => true
  | playerPlay => Nat.leb maxBufferSize (length (buf p))
  | playerClosed => false
  end.

(** [wait]: [None] while the caller stays blocked on the condition. *)
Definition wait (p : playerImpl Src) : option bool :=
  if shouldWait p then None
  else Some (bool_decide (state p = playerPlay)).

(** The size of the buffer that [loop] reads into. *)
Definition loopChunk : nat := 4096.

(** Where the goroutine of [loop] stands. *)
Inductive loopPc : Type :=
  | LoopNotStarted
  | LoopAtWait
  | LoopAtRead
  | LoopGot (data : list byte) (e : option error)
  | LoopReturned.

(** [src.Read(buf)] in [loop], without the mutex. *)
Definition loopRead (p : playerImpl Src) : playerImpl Src * loopPc :=
  let '(data, e, s') := Read (src p) loopChunk in
  (setSrc s' p, LoopGot data e).

(** The rest of an iteration of [loop] once [Read] has returned
    [data, e]: [setError] and return, or append and maybe reset. *)
Definition loopStore (self : ptr) (c : context) (data : list byte)
    (e : option error) (p : playerImpl Src) : context * playerImpl Src * loopPc :=
  if isFailure e then (setErrorImpl self c e p, LoopReturned)
  else
    let p1 := setBuf (buf p ++ data) p in
    let p2 :=
      if bool_decide (e = Some io_EOF) && Nat.eqb (length (buf p1)) 0
      then resetImpl p1 else p1 in
    (c, p2, LoopAtWait).

(** ** The player among its threads *)

Record world : Type := mkWorld {
  w_self : ptr;
  w_ctx : context;
  w_player : playerImpl Src;
  w_loop : loopPc
}.

(** What can happen next: a call of the public interface, a call of
    [addBuffer] from the write callback, or a move of the fill loop. *)
Inductive op : Type :=
  | OpPlay (fuel : nat)
  | OpPause
  | OpReset
  | OpClose
  | OpSetVolume (v : float64)
  | OpMix (out : list float32)
  | OpLoopWait
  | OpLoopRead
  | OpLoopStore.

Definition exec (o : op) (w : world) : option world :=
  let self := w_self w in
  let c := w_ctx w in
  let p := w_player w in
  match o with
  | OpPlay fuel =>
      match playImpl fuel self c p with
      | None => None
      | Some (c', p') =>
          let pc := if negb (hasLoop p) && hasLoop p' then LoopAtWait else w_loop w in
          Some (mkWorld self c' p' pc)
      end
  | OpPause => Some (mkWorld self c (pauseImpl p) (w_loop w))
  | OpReset => Some (mkWorld self c (resetImpl p) (w_loop w))
  | OpClose =>
      let '(c', p', _) := closeImpl self c p in
      Some (mkWorld self c' p' (w_loop w))
  | OpSetVolume v => Some (mkWorld self c (SetVolume v p) (w_loop w))
  | OpMix out =>
      match addBuffer c p out with
      | None => None
      | Some (p', _, _) => Some (mkWorld self c p' (w_loop w))
      end
  | OpLoopWait =>
      match w_loop w with
      | LoopAtWait =>
          match wait p with
          | None => None
          | Some true => Some (mkWorld self c p LoopAtRead)
          | Some false => Some (mkWorld self c p LoopReturned)
          end
      | _ => None
      end
  | OpLoopRead =>
      match w_loop w with
      | LoopAtRead =>
          let '(p', pc) := loopRead p in Some (mkWorld self c p' pc)
      | _ => None
      end
  | OpLoopStore =>
      match w_loop w with
      | LoopGot data e =>
          let '(c', p', pc) := loopStore self c data e p in
          Some (mkWorld self c' p' pc)
      | _ => None
      end
  end.

Fixpoint run (os : list op) (w : world) : option world :=
  match os with
  | [] => Some w
  | o :: os' =>
      match exec o w with
      | None => None
      | Some w' => run os' w'
      end
  end.

(** A fresh player of a context. *)
Definition initWorld (self : ptr) (c : context) (s : Src) : world :=
  mkWorld self c (NewPlayer s) LoopNotStarted.

Inductive reachable : world -> Prop :=
  | reachable_init self c s : reachable (initWorld self c s)
  | reachable_step o w w' : reachable w -> exec o w = Some w' -> reachable w'.

End Player.

(** ** Readers

    [io.Reader] is an interface; these are the readers the examples and
    the statements about a source of known length are made with. *)

(** A reader over a byte slice, behaving as [bytes.Reader]: each [Read]
    copies as many of the unread bytes as fit, and reports [io.EOF] once
    none is left. *)
Record sliceReader : Type := SliceReader { unread : list byte }.

Definition sliceRead (s : sliceReader) (cap : nat)
    : list byte * option error * sliceReader :=
  match unread s with
  | [] => ([], Some io_EOF, s)
  | _ => (take cap (unread s), None, SliceReader (drop cap (unread s)))
  end.

Lemma sliceRead_len s cap : length (sliceRead s cap).1.1 <= cap.
Proof.
  unfold sliceRead. destruct (unread s) as [|b l]; simpl; [lia|].
  rewrite length_take. lia.
Qed.

#[global] Instance sliceReader_Reader : Reader sliceReader :=
  {| Read := sliceRead; Read_len := sliceRead_len |}.

(** A reader that plays a script: each entry is what one [Read] returns,
    some bytes and an error.  An entry too long for the buffer is handed
    out in pieces; after the script the reader reports [io.EOF]. *)
Record scriptReader : Type :=
  ScriptReader { script : list (list byte * option error) }.

Definition scriptRead (s : scriptReader) (cap : nat)
    : list byte * option error * scriptReader :=
  match script s with
  | [] => ([], Some io_EOF, s)
  | (data, e) :: rest =>
      if Nat.leb (length data) cap then (data, e, ScriptReader rest)
      else (take cap data, None, ScriptReader ((drop cap data, e) :: rest))
  end.

Lemma scriptRead_len s cap : length (scriptRead s cap).1.1 <= cap.
Proof.
  unfold scriptRead. destruct (script s) as [|[data e] rest]; simpl; [lia|].
  destruct (Nat.leb_spec (length data) cap); simpl; [lia|].
  rewrite length_take. lia.
Qed.

#[global] Instance scriptReader_Reader : Reader scriptReader :=
  {| Read := scriptRead; Read_len := scriptRead_len |}.

(** Readers over a known sequence of bytes that fill every request as far
    as bytes remain and never fail: [remaining s] is what is still to be
    read. *)
Class FullReader (Src : Type) `{Reader Src} : Type := {
  remaining : Src -> list byte;
  full_data : forall s cap, (Read s cap).1.1 = take cap (remaining s);
  full_rest : forall s cap, remaining (Read s cap).2 = drop cap (remaining s);
  full_ok : forall s cap, isFailure (Read s cap).1.2 = false;
  full_eof : forall s cap, remaining s = [] -> (Read s cap).1.2 = Some io_EOF
}.

Lemma sliceRead_data s cap : (sliceRead s cap).1.1 = take cap (unread s).
Proof. unfold sliceRead. destruct (unread s); [by rewrite take_nil|done]. Qed.

Lemma sliceRead_rest s cap : unread (sliceRead s cap).2 = drop cap (unread s).
Proof.
  unfold sliceRead. destruct (unread s) eqn:E; [|done].
  simpl. rewrite E. by rewrite drop_nil.
Qed.

Lemma sliceRead_ok s cap : isFailure (sliceRead s cap).1.2 = false.
Proof. unfold sliceRead. by destruct (unread s). Qed.

Lemma sliceRead_eof s cap : unread s = [] -> (sliceRead s cap).1.2 = Some io_EOF.
Proof. unfold sliceRead. by intros ->. Qed.

#[global] Instance sliceReader_Full : FullReader sliceReader :=
  {| remaining := unread;
     full_data := sliceRead_data;
     full_rest := sliceRead_rest;
     full_ok := sliceRead_ok;
     full_eof := sliceRead_eof |}.

(** ** The write callback

    The loop over the snapshot of the registry in
    [ebiten_readerdriver_streamWriteCallback]: every player adds to the
    same float buffer.  The players are given by value, in the order of
    the snapshot. *)
Fixpoint mixPlayers {Src : Type} (c : context) (ps : list (playerImpl Src))
    (out : list float32) : option (list (playerImpl Src) * list float32) :=
  match ps with
  | [] => Some ([], out)
  | p :: ps' =>
      match addBuffer c p out with
      | None => None
      | Some (p', out', _) =>
          match mixPlayers c ps' out' with
          | None => None
          | Some (ps'', out'') => Some (p' :: ps'', out'')
          end
      end
  end.

(** ** Vocabulary of the statements *)

(** What [addBuffer] does to slot [i] of the destination. *)
Definition mixed (depth : nat) (b : list byte) (vol : float32) (i : nat)
    (x : float32) : float32 :=
  f32add x (f32mul (sample depth b i) vol).

(** The player after [n] samples were taken from the front of its buffer. *)
Definition consume {Src : Type} (c : context) (n : nat) (p : playerImpl Src)
    : playerImpl Src :=
  setBuf (drop (n * bitDepthInBytes c) (buf p)) p.

(** The number of samples a playing player can add to [out]. *)
Definition available {Src : Type} (c : context) (p : playerImpl Src)
    (out : list float32) : nat :=
  Nat.min (length (buf p) / bitDepthInBytes c) (length out).

(** ** Vocabulary of the statements about the threads *)

Section Vocabulary.
Context {Src : Type} `{Reader Src}.
Variable maxBufferSize : nat.

(** Step [o] from [w] is one at which a [Read] failed with [e] and the
    failure was handed to [setErrorImpl]: in the fill of [playImpl], or in
    [loop]. *)
Definition recordsError (o : op) (w : @world Src) (e : option error) : Prop :=
  isFailure e = true
  /\ ((exists fuel p1,
         o = OpPlay fuel /\ state (w_player w) = playerPaused
         /\ fillLoop maxBufferSize fuel (w_player w) = Some (Failed e p1))
      \/ (exists data, o = OpLoopStore /\ w_loop w = LoopGot data e)).

(** The bound on the buffer that every step keeps: [playImpl] reads up to
    [maxBufferSize] bytes on top of a buffer below [maxBufferSize], and
    [loop] appends up to [loopChunk] bytes that it read when the buffer
    was below [maxBufferSize]. *)
Definition bufferBound (w : @world Src) : Prop :=
  state (w_player w) = playerClosed
  \/ (length (buf (w_player w)) < 2 * maxBufferSize + loopChunk
      /\ match w_loop w with
         | LoopAtRead => length (buf (w_player w)) < 2 * maxBufferSize
         | LoopGot data _ =>
             length (buf (w_player w)) < 2 * maxBufferSize
             /\ length data <= loopChunk
         | _ => True
         end).

End Vocabulary.

(** ** Example data *)

(** Sixteen-bit stereo and eight-bit mono contexts with no player yet. *)
Definition ctx16 : context := mkContext 44100%Z 2%Z 2 ∅.
Definition ctx8 : context := mkContext 44100%Z 1%Z 1 ∅.

(** The value of [maxBufferSize] in the examples. *)
Definition max8 : nat := 8.

Definition pcm16 : list byte :=
  [x00; x40; x00; xc0; x00; x20; x00; xe0; x00; x10; x00; xf0; x00; x08; x00; xf8].

Definition silence (n : nat) : list float32 := replicate n f32zero.

(** A player in the middle of playing two sixteen-bit samples and a half. *)
Definition playing16 : playerImpl sliceReader :=
  mkPlayer (SliceReader []) (f64_of_Z 1) None playerPlay [x00; x40; x00; xc0; x7f] true.

(** A second one, at half the volume. *)
Definition playing16' : playerImpl sliceReader :=
  mkPlayer (SliceReader []) (binary_normalize prec64 emax64 1 (-1) false) None
    playerPlay [x00; x20; x00; x20] true.

Definition paused16 : playerImpl sliceReader :=
  mkPlayer (SliceReader []) (f64_of_Z 1) None playerPaused [x00; x40; x00; xc0] true.

(** A fresh player over sixteen bytes, and one whose source fails at the
    second [Read]. *)
Definition world16 : world :=
  initWorld 1 ctx16 (SliceReader pcm16).

Definition failing : scriptReader :=
  ScriptReader [([x00; x40; x00; xc0], None); ([], Some (read_failure 5))].

Definition worldFailing : world := initWorld 1 ctx16 failing.



(** The world after the steps [os], where they can all be taken. *)
Definition after {Src : Type} `{Reader Src} (maxBufferSize : nat) (os : list op)
    (w : @world Src) : world :=
  default w (run maxBufferSize os w).

(** A playing player whose fill loop waits. *)
Definition playingWorld : world := mkWorld 1 ctx16 playing16 LoopAtWait.

(** [world16] after a first [Play], one mixing of two samples and a
    [Pause]; and the same after a second [Play]. *)
Definition resumed : world :=
  after max8 [OpPlay 2; OpMix (silence 2); OpPause] world16.

Definition overfull : world := after max8 [OpPlay 2] resumed.

(** A player over four bytes whose fill loop has met the end of the
    stream after the callback took all four. *)
Definition drained : world :=
  after max8 [OpPlay 2; OpLoopWait; OpLoopRead; OpMix (silence 2)]
    (initWorld 1 ctx16 (SliceReader [x00; x40; x00; xc0])).

(** A source that hands out 8, then 4096, then 8 bytes; and an eight-bit
    player over it after [Play], one sample mixed, the loop reading its
    chunk, [Pause] and [Play], and the loop storing the chunk. *)
Definition bulky : scriptReader :=
  ScriptReader
    [(replicate 8 x01, None); (replicate loopChunk x02, None); (replicate 8 x03, None)].

Definition brimful : world :=
  after max8
    [OpPlay 2; OpMix (silence 1); OpLoopWait; OpLoopRead; OpPause; OpPlay 2; OpLoopStore]
    (initWorld 1 ctx8 bulky).

(** [worldFailing] after [Play]: the second [Read] of the fill failed. *)
Definition broken : world := after max8 [OpPlay 2] worldFailing.

(** An eight-bit player holding the bytes 0, 127, 128 and 255. *)
Definition playing8 : playerImpl sliceReader :=
  mkPlayer (SliceReader []) (f64_of_Z 1) None playerPlay [x00; x7f; x80; xff] true.

(** All the values of a byte. *)
Definition allBytes : list byte := List.map (fun n => Zbyte (Z.of_nat n)) (seq 0 256).

(** The little-endian signed value of two bytes. *)
Definition int16le (lo hi : byte) : Z := int16 (byteZ lo + 256 * byteZ hi).

(** What the two-byte case of the converter is checked against: the value
    is exactly [int16le lo hi / 2^15], and it lies in [-1, 1). *)
Definition sample16_ok (lo hi : byte) : bool :=
  SFeqb (sample 2 [lo; hi] 0) (f32_dyadic (int16le lo hi) 15)
  && f32leb (f32_of_Z (-1)) (sample 2 [lo; hi] 0)
  && f32ltb (sample 2 [lo; hi] 0) (f32_of_Z 1).

(** ** One pass of the loop of the write callback

    The body of the [for] loop of
    [ebiten_readerdriver_streamWriteCallback] once
    [pa_stream_begin_write] has set [bytesToFill]: [buf32] is replaced by
    a fresh slice when it is too short and has its front zeroed
    otherwise, every player of the snapshot adds to [buf32[:bytesToFill/4]],
    and that many samples are copied to the buffer of the stream. *)

(** [buf32[i] = 0] for [i] from [i] to [i + k - 1]. *)
Fixpoint zeroLoop (i k : nat) (buf32 : list float32) : list float32 :=
  match k with
  | 0 => buf32
  | S k' => zeroLoop (S i) k' (<[i:=f32zero]> buf32)
  end.

Definition prepareBuf32 (buf32 : list float32) (k : nat) : list float32 :=
  if Nat.ltb (length buf32) k then replicate k f32zero
  else zeroLoop 0 k buf32.

(** The players, [buf32] and the samples handed to [pa_stream_write]
    after the pass. *)
Definition writeChunk {Src : Type} (c : context) (ps : list (playerImpl Src))
    (buf32 : list float32) (bytesToFill : nat)
    : option (list (playerImpl Src) * list float32 * list float32) :=
  let k := bytesToFill / 4 in
  let buf32 := prepareBuf32 buf32 k in
  match mixPlayers c ps (take k buf32) with
  | None => None
  | Some (ps', front) => Some (ps', front ++ drop k buf32, front)
  end.

(** ** Vocabulary of the further statements *)

(** What a player of the snapshot does to slot [i] of a destination of
    [k] samples. *)
Definition mixedBy {Src : Type} (c : context) (k : nat) (p : playerImpl Src)
    (i : nat) (x : float32) : float32 :=
  if bool_decide (state p = playerPlay)
     && Nat.ltb i (Nat.min (length (buf p) / bitDepthInBytes c) k)
  then mixed (bitDepthInBytes c) (buf p) (f32_of_f64 (volume p)) i x
  else x.

(** A player after it was asked for [k] samples. *)
Definition mixedPlayer {Src : Type} (c : context) (k : nat) (p : playerImpl Src)
    : playerImpl Src :=
  if bool_decide (state p = playerPlay)
  then consume c (Nat.min (length (buf p) / bitDepthInBytes c) k) p
  else p.

(** The chunk that [loop] has read and not stored yet. *)
Definition pending (pc : loopPc) : list byte :=
  match pc with
  | LoopGot data _ => data
  | _ => []
  end.

(** The bytes on their way to the mixer: the buffer, the chunk in the
    hands of [loop], and what the source still holds. *)
Definition stream {Src : Type} `{FullReader Src} (w : @world Src) : list byte :=
  buf (w_player w) ++ pending (w_loop w) ++ remaining (src (w_player w)).

(** The moves of the goroutine of [loop]. *)
Definition isLoopMove (o : op) : Prop :=
  o = OpLoopWait \/ o = OpLoopRead \/ o = OpLoopStore.

(** A finite number or a zero: neither an infinity nor a NaN. *)
Definition isNumber (x : float32) : Prop :=
  match x with
  | S754_zero _ | S754_finite _ _ _ => True
  | _ => False
  end.

(** ** Further example data *)

(** [world16] playing, two samples mixed, and the loop holding the eight
    bytes it has just read. *)
Definition midRead : world :=
  after max8 [OpPlay 2; OpMix (silence 2); OpLoopWait; OpLoopRead] world16.

(** A source of eight bytes, a chunk of the loop and eight bytes more;
    and a player over it that has played, had two samples mixed and been
    paused while its loop holds the chunk it has read. *)
Definition longSource : sliceReader :=
  SliceReader (replicate 8 x01 ++ replicate loopChunk x02 ++ replicate 8 x03).

Definition overtaken : world :=
  after max8 [OpPlay 2; OpMix (silence 2); OpLoopWait; OpLoopRead; OpPause]
    (initWorld 1 ctx16 longSource).

(** A playing player at volume zero, and one whose volume is not a
    number. *)
Definition muted16 : playerImpl sliceReader :=
  mkPlayer (SliceReader []) (S754_zero false) None playerPlay [x00; x40; x00; xc0] true.


(** ** The player with the hand-overs of its mutex

    [closeImpl] gives the mutex of the player up while it calls
    [removePlayer] (lines 617-619), and [playImpl] while it calls
    [addPlayer] (lines 516-518).  In [exec] a call runs through these
    places in one step.  Here a call that has reached such a place is kept
    as a continuation, and any other step may come before it goes on; so
    what lies between [p.err = err] and [p.state = playerClosed] in
    [setErrorImpl] can be seen. *)

(** What a call has left to do when it has given the mutex up. *)
Inductive kont : Type :=
  | KRemove      (* [closeImpl]: [removePlayer], then take the mutex *)
  | KCloseBody   (* [closeImpl]: the rest, under the mutex *)
  | KAdd         (* [playImpl]: [addPlayer], then take the mutex *)
  | KPlayRest.   (* [playImpl]: the rest, under the mutex *)

#[global] Instance kont_eq_dec : EqDecision kont.
Proof. solve_decision. Defined.

Definition isCloseKont (k : kont) : bool :=
  match k with
  | KRemove | KCloseBody => true
  | _ => false
  end.

Section FinePlayer.

Context {Src : Type} `{Reader Src}.
Variable maxBufferSize : nat.

(** [closeImpl] from the point where it has the mutex again, with the
    value it returns. *)
Definition closeBody (p : playerImpl Src) : playerImpl Src * option error :=
  if bool_decide (state p = playerClosed) then (p, None)
  else (setBuf [] (setState playerClosed p), err p).

Record fineWorld : Type := mkFine {
  fw_self : ptr;
  fw_ctx : context;
  fw_player : playerImpl Src;
  fw_loop : loopPc;
  (** where the goroutine of [loop] stands inside [setError], if there *)
  fw_loopKont : option kont;
  (** the calls of [Play] and [Close] that are under way *)
  fw_calls : list kont
}.

Inductive fineOp : Type :=
  | FPlay (fuel : nat)
  | FPause
  | FReset
  | FClose
  | FSetVolume (v : float64)
  | FMix (out : list float32)
  | FResume (i : nat)
  | FLoopWait
  | FLoopRead
  | FLoopStore
  | FLoopResume.

(** The next stretch of a continuation: the context, the player and the
    position of the loop afterwards, and what is left of the call. *)
Definition resume (k : kont) (self : ptr) (c : context) (p : playerImpl Src)
    (pc : loopPc) : context * playerImpl Src * loopPc * option kont :=
  match k with
  | KRemove => (removePlayer c self, p, pc, Some KCloseBody)
  | KCloseBody => (c, (closeBody p).1, pc, None)
  | KAdd => (addPlayer c self, p, pc, Some KPlayRest)
  | KPlayRest =>
      if hasLoop p then (c, p, pc, None)
      else (c, setHasLoop true p, LoopAtWait, None)
  end.

Definition fineExec (o : fineOp) (w : fineWorld) : option fineWorld :=
  let self := fw_self w in
  let c := fw_ctx w in
  let p := fw_player w in
  let pc := fw_loop w in
  let lk := fw_loopKont w in
  let calls := fw_calls w in
  match o with
  | FPlay fuel =>
      if bool_decide (err p ≠ None) then Some w
      else if bool_decide (state p ≠ playerPaused) then Some w
      else
        match fillLoop maxBufferSize fuel p with
        | None => None
        | Some (Failed e p1) =>
            Some (mkFine self c (setErr e p1) pc lk (calls ++ [KRemove]))
        | Some (Filled p1) =>
            Some (mkFine self c (setState playerPlay p1) pc lk (calls ++ [KAdd]))
        end
  | FPause => Some (mkFine self c (pauseImpl p) pc lk calls)
  | FReset => Some (mkFine self c (resetImpl p) pc lk calls)
  | FClose => Some (mkFine self c p pc lk (calls ++ [KRemove]))
  | FSetVolume v => Some (mkFine self c (SetVolume v p) pc lk calls)
  | FMix out =>
      match addBuffer c p out with
      | None => None
      | Some (p', _, _) => Some (mkFine self c p' pc lk calls)
      end
  | FResume i =>
      match calls !! i with
      | None => None
      | Some k =>
          let '(c', p', pc', rest) := resume k self c p pc in
          let calls' :=
            match rest with
            | Some k' => <[i:=k']> calls
            | None => delete i calls
            end in
          Some (mkFine self c' p' pc' lk calls')
      end
  | FLoopWait =>
      match pc, lk with
      | LoopAtWait, None =>
          match wait maxBufferSize p with
          | None => None
          | Some true => Some (mkFine self c p LoopAtRead lk calls)
          | Some false => Some (mkFine self c p LoopReturned lk calls)
          end
      | _, _ => None
      end
  | FLoopRead =>
      match pc, lk with
      | LoopAtRead, None =>
          let '(p', pc') := loopRead p in Some (mkFine self c p' pc' lk calls)
      | _, _ => None
      end
  | FLoopStore =>
      match pc, lk with
      | LoopGot data e, None =>
          if isFailure e
          then Some (mkFine self c (setErr e p) pc (Some KRemove) calls)
          else
            let '(c', p', pc') := loopStore self c data e p in
            Some (mkFine self c' p' pc' lk calls)
      | _, _ => None
      end
  | FLoopResume =>
      match lk with
      | Some KRemove =>
          Some (mkFine self (removePlayer c self) p pc (Some KCloseBody) calls)
      | Some KCloseBody =>
          Some (mkFine self c (closeBody p).1 LoopReturned None calls)
      | _ => None
      end
  end.

Fixpoint fineRun (os : list fineOp) (w : fineWorld) : option fineWorld :=
  match os with
  | [] => Some w
  | o :: os' =>
      match fineExec o w with
      | None => None
      | Some w' => fineRun os' w'
      end
  end.

(** A world of [exec], with no call under way. *)
Definition settled (w : @world Src) : fineWorld :=
  mkFine (w_self w) (w_ctx w) (w_player w) (w_loop w) None [].

Inductive fineReachable : fineWorld -> Prop :=
  | fineReachable_init self c s :
      fineReachable (settled (initWorld self c s))
  | fineReachable_step o w w' :
      fineReachable w -> fineExec o w = Some w' -> fineReachable w'.

(** A call is on its way through [closeImpl]. *)
Definition closing (w : fineWorld) : Prop :=
  Exists (fun k => isCloseKont k = true) (fw_calls w)
  \/ exists k, fw_loopKont w = Some k /\ isCloseKont k = true.

(** The steps by which a call that gave the mutex up goes on. *)
Definition isResume (o : fineOp) : Prop :=
  o = FLoopResume \/ exists i, o = FResume i.

(** Step [o] from [w] is one at which a [Read] failed with [e] and [e]
    was written to [p.err]. *)
Definition fineRecordsError (o : fineOp) (w : fineWorld) (e : option error) : Prop :=
  isFailure e = true
  /\ ((exists fuel p1,
         o = FPlay fuel /\ state (fw_player w) = playerPaused
         /\ fillLoop maxBufferSize fuel (fw_player w) = Some (Failed e p1))
      \/ (exists data, o = FLoopStore /\ fw_loop w = LoopGot data e)).

(** The world after the steps [os], where they can all be taken. *)
Definition fineAfter (os : list fineOp) (w : fineWorld) : fineWorld :=
  default w (fineRun os w).

End FinePlayer.

(** A source that gives eight bytes and then fails; and a player over it
    that plays, has two samples mixed, and whose loop has written the
    failure of its [Read] to [p.err] and given the mutex up in
    [closeImpl]. *)
Definition failingLate : scriptReader :=
  ScriptReader
    [([x00; x40; x00; xc0; x00; x20; x00; xe0], None); ([], Some (read_failure 5))].

Definition halfClosed : fineWorld :=
  fineAfter max8
    [FPlay 2; FResume 0; FResume 0; FMix (silence 2); FLoopWait; FLoopRead; FLoopStore]
    (settled (initWorld 1 ctx16 failingLate)).

(** * Facts about the embedding *)

(** ** Mixing *)

Section MixFacts.
Context {Src : Type}.
Implicit Types (p : playerImpl Src) (out : list float32) (b : list byte).

Lemma mixLoop_length depth b vol i k out :
  length (mixLoop depth b vol i k out) = length out.
Proof.
  revert i out. induction k as [|k IH]; intros i out; simpl; [done|].
  rewrite IH. apply length_alter.
Qed.

Lemma mixLoop_lookup depth b vol i k out j :
  mixLoop depth b vol i k out !! j =
    if bool_decide (i <= j < i + k) then mixed depth b vol j <$> out !! j
    else out !! j.
Proof.
  revert i out. induction k as [|k IH]; intros i out; simpl.
  - rewrite bool_decide_eq_false_2; [done|lia].
  - rewrite IH. destruct (decide (i = j)) as [->|Hne].
    + rewrite list_lookup_alter_eq.
      rewrite bool_decide_eq_false_2 by lia.
      rewrite bool_decide_eq_true_2 by lia. done.
    + rewrite list_lookup_alter_ne by done.
      destruct (decide (S i <= j < S i + k)).
      * rewrite !bool_decide_eq_true_2 by lia. done.
      * rewrite !bool_decide_eq_false_2 by lia. done.
Qed.

Lemma addBuffer_playing c p out :
  state p = playerPlay -> bitDepthInBytes c <> 0 ->
  addBuffer c p out =
    Some (consume c (available c p out) p,
          mixLoop (bitDepthInBytes c) (buf p) (f32_of_f64 (volume p)) 0
            (available c p out) out,
          available c p out).
Proof.
  intros Hst Hd. unfold addBuffer, consume, available.
  rewrite Hst. rewrite bool_decide_eq_true_2 by done. simpl.
  destruct (Nat.eqb_spec (bitDepthInBytes c) 0) as [|_]; [done|].
  destruct (Nat.ltb_spec (length out) (length (buf p) / bitDepthInBytes c)).
  - rewrite Nat.min_r by lia. done.
  - rewrite Nat.min_l by lia. done.
Qed.

Lemma addBuffer_not_playing c p out :
  state p <> playerPlay -> addBuffer c p out = Some (p, out, 0).
Proof.
  intros Hst. unfold addBuffer. by rewrite bool_decide_eq_false_2.
Qed.

Lemma available_bytes c p out :
  bitDepthInBytes c <> 0 ->
  available c p out * bitDepthInBytes c + length (buf p) mod bitDepthInBytes c
    <= length (buf p).
Proof.
  intros Hd. unfold available.
  pose proof (Nat.div_mod (length (buf p)) (bitDepthInBytes c) Hd) as E.
  assert (Nat.min (length (buf p) / bitDepthInBytes c) (length out)
            <= length (buf p) / bitDepthInBytes c) as Hle by lia.
  nia.
Qed.

(** The indices [addBuffer] reads in the two-byte case are inside the
    buffer, so the default of [byteAt] is never used. *)
Lemma available_index c p out i :
  bitDepthInBytes c = 2 -> i < available c p out -> 2 * i + 1 < length (buf p).
Proof.
  intros Hd Hi.
  pose proof (available_bytes c p out) as Hb. rewrite Hd in Hb. lia.
Qed.

(** C8: a player that is Paused or Closed when the callback mixes adds
    nothing: [addBuffer] returns 0, and the destination and the whole
    player (buffer, state, recorded error) are as before. *)
Theorem addBuffer_silent_unless_playing c p out :
  state p = playerPaused \/ state p = playerClosed ->
  addBuffer c p out = Some (p, out, 0).
Proof.
  intros Hst. apply addBuffer_not_playing. destruct Hst as [-> | ->]; done.
Qed.

(** C10: [addBuffer] takes whole samples from the front of the buffer:
    the bytes removed are [n * bitDepthInBytes] for the returned [n], the
    rest stays in order, the bytes of a trailing partial sample stay, and
    the buffer does not grow. *)
Theorem addBuffer_whole_samples c p out :
  bitDepthInBytes c <> 0 ->
  exists p' out' n,
    addBuffer c p out = Some (p', out', n)
    /\ buf p = take (n * bitDepthInBytes c) (buf p) ++ buf p'
    /\ length (buf p) = n * bitDepthInBytes c + length (buf p')
    /\ length (buf p) mod bitDepthInBytes c <= length (buf p')
    /\ drop (length (buf p) - length (buf p) mod bitDepthInBytes c) (buf p)
       = drop (length (buf p') - length (buf p) mod bitDepthInBytes c) (buf p')
    /\ length (buf p') <= length (buf p).
Proof.
  intros Hd. destruct (decide (state p = playerPlay)) as [Hst|Hst].
  - eexists _, _, _. split; [by apply addBuffer_playing|].
    pose proof (available_bytes c p out Hd) as Hb.
    set (n := available c p out) in *. simpl.
    split; [by rewrite take_drop|].
    rewrite length_drop. repeat split; try lia.
    rewrite drop_drop. f_equal. lia.
  - eexists _, _, _. split; [by apply addBuffer_not_playing|].
    pose proof (Nat.Div0.mod_le (length (buf p)) (bitDepthInBytes c)).
    simpl. repeat split; lia.
Qed.

(** C5: a Playing player adds [n = min (len B / bitDepthInBytes) C]
    samples: slot [i < n] of the destination becomes its old value plus
    sample [i] times the volume, the other slots keep their value, [n]
    samples leave the buffer and [n] is returned; two players mixed one
    after the other leave in a slot the sum of both contributions. *)
Theorem addBuffer_adds_scaled_samples c p1 p2 out :
  state p1 = playerPlay -> state p2 = playerPlay -> bitDepthInBytes c <> 0 ->
  exists out1 out2,
    addBuffer c p1 out = Some (consume c (available c p1 out) p1, out1, available c p1 out)
    /\ length out1 = length out
    /\ (forall i, i < available c p1 out ->
          out1 !! i = mixed (bitDepthInBytes c) (buf p1) (f32_of_f64 (volume p1)) i <$> out !! i)
    /\ (forall i, available c p1 out <= i -> out1 !! i = out !! i)
    /\ mixPlayers c [p1; p2] out
       = Some ([consume c (available c p1 out) p1; consume c (available c p2 out) p2], out2)
    /\ (forall i, i < available c p1 out -> i < available c p2 out ->
          out2 !! i =
            (fun x => f32add
                        (f32add x (f32mul (sample (bitDepthInBytes c) (buf p1) i)
                                          (f32_of_f64 (volume p1))))
                        (f32mul (sample (bitDepthInBytes c) (buf p2) i)
                                (f32_of_f64 (volume p2)))) <$> out !! i).
Proof.
  intros H1 H2 Hd.
  pose proof (addBuffer_playing c p1 out H1 Hd) as E1.
  set (out1 := mixLoop _ _ _ _ _ _) in E1.
  pose proof (addBuffer_playing c p2 out1 H2 Hd) as E2.
  set (out2 := mixLoop _ _ _ _ _ _) in E2.
  assert (length out1 = length out) as Hlen by apply mixLoop_length.
  assert (available c p2 out1 = available c p2 out) as Hav
    by (unfold available; by rewrite Hlen).
  exists out1, out2. split; [done|]. split; [done|].
  split; [|split; [|split]].
  - intros i Hi. unfold out1. rewrite mixLoop_lookup.
    case_bool_decide; [done|lia].
  - intros i Hi. unfold out1. rewrite mixLoop_lookup.
    case_bool_decide; [lia|done].
  - simpl. rewrite E1, E2, Hav. done.
  - intros i Hi1 Hi2. unfold out2. rewrite Hav. unfold out1.
    rewrite !mixLoop_lookup.
    repeat case_bool_decide; try lia.
    destruct (out !! i); done.
Qed.

End MixFacts.

(** A paused player with four bytes buffered adds nothing. *)
Lemma addBuffer_silent_unless_playing_witness :
  (state paused16 = playerPaused \/ state paused16 = playerClosed)
  /\ addBuffer ctx16 paused16 (silence 2) = Some (paused16, silence 2, 0).
Proof.
  assert (state paused16 = playerPaused \/ state paused16 = playerClosed) as Hst
    by (left; reflexivity).
  split; [exact Hst|].
  exact (addBuffer_silent_unless_playing ctx16 paused16 (silence 2) Hst).
Defined.

(** Five bytes buffered, three slots: two samples leave, one byte stays. *)
Lemma addBuffer_whole_samples_witness :
  bitDepthInBytes ctx16 <> 0
  /\ exists p' out' n,
       addBuffer ctx16 playing16 (silence 3) = Some (p', out', n)
       /\ n = 2 /\ buf p' = [x7f].
Proof.
  assert (bitDepthInBytes ctx16 <> 0) as Hd by (simpl; lia).
  split; [exact Hd|].
  destruct (addBuffer_whole_samples ctx16 playing16 (silence 3) Hd)
    as (p' & out' & n & E & _).
  exists p', out', n. split; [exact E|].
  vm_compute in E. injection E as <- <- <-. split; reflexivity.
Defined.

(** Samples 1/2 and -1/2 at volume 1 mixed with 1/4 and 1/4 at volume 1/2. *)
Lemma addBuffer_adds_scaled_samples_witness :
  state playing16 = playerPlay /\ state playing16' = playerPlay
  /\ bitDepthInBytes ctx16 <> 0
  /\ exists ps out2,
       mixPlayers ctx16 [playing16; playing16'] (silence 3) = Some (ps, out2)
       /\ out2 = [f32_dyadic 5 3; f32_dyadic (-3) 3; f32zero].
Proof.
  assert (bitDepthInBytes ctx16 <> 0) as Hd by (simpl; lia).
  split; [reflexivity|]. split; [reflexivity|]. split; [exact Hd|].
  destruct (addBuffer_adds_scaled_samples ctx16 playing16 playing16' (silence 3)
              eq_refl eq_refl Hd) as (out1 & out2 & _ & _ & _ & _ & E & _).
  eexists _, out2. split; [exact E|].
  vm_compute in E. injection E as <-. reflexivity.
Defined.

(** ** The fill of [playImpl] *)

Section PlayerFacts.
Context {Src : Type} `{Reader Src}.
Variable maxBufferSize : nat.
Implicit Types (p : playerImpl Src) (w : @world Src) (c : context).

Abbreviation fillLoop := (fillLoop maxBufferSize).
Abbreviation playImpl := (playImpl maxBufferSize).

Definition fillPlayer (r : @fillResult Src) : playerImpl Src :=
  match r with
  | Filled p => p
  | Failed _ p => p
  end.

Lemma fillLoop_frame fuel p r :
  fillLoop fuel p = Some r ->
  volume (fillPlayer r) = volume p /\ err (fillPlayer r) = err p
  /\ state (fillPlayer r) = state p /\ hasLoop (fillPlayer r) = hasLoop p.
Proof.
  revert p. induction fuel as [|fuel IH]; intros p; simpl.
  - destruct (length (buf p) <? maxBufferSize); [done|].
    intros [= <-]. done.
  - destruct (length (buf p) <? maxBufferSize); [|intros [= <-]; done].
    destruct (Read (src p) maxBufferSize) as [[data e] s'].
    destruct (isFailure e); [intros [= <-]; done|].
    case_bool_decide; [intros [= <-]; done|].
    intros E. apply IH in E. exact E.
Qed.

Lemma fillLoop_failed fuel p e p' :
  fillLoop fuel p = Some (Failed e p') -> isFailure e = true.
Proof.
  revert p. induction fuel as [|fuel IH]; intros p; simpl.
  - destruct (length (buf p) <? maxBufferSize); done.
  - destruct (length (buf p) <? maxBufferSize); [|done].
    destruct (Read (src p) maxBufferSize) as [[data e0] s'].
    destruct (isFailure e0) eqn:Ef; [by intros [= <- <-]|].
    case_bool_decide; [done|]. apply IH.
Qed.

(** The loop stops at the first [Read] that brings the buffer to
    [maxBufferSize] or beyond; that [Read] may bring [maxBufferSize] bytes
    more. *)
Lemma fillLoop_bound fuel p p' :
  fillLoop fuel p = Some (Filled p') ->
  length (buf p') < Nat.max (S (length (buf p))) (2 * maxBufferSize).
Proof.
  revert p. induction fuel as [|fuel IH]; intros p; simpl.
  - destruct (length (buf p) <? maxBufferSize); [done|].
    intros [= <-]. lia.
  - destruct (Nat.ltb_spec (length (buf p)) maxBufferSize) as [Hlt|Hge];
      [|intros [= <-]; lia].
    pose proof (Read_len (src p) maxBufferSize) as Hlen.
    destruct (Read (src p) maxBufferSize) as [[data e] s']. simpl in Hlen.
    destruct (isFailure e); [done|].
    case_bool_decide.
    + intros [= <-]. simpl. rewrite length_app. lia.
    + intros E. apply IH in E. simpl in E. rewrite length_app in E. lia.
Qed.

Lemma isFailure_Some e : isFailure e = true -> e <> None.
Proof. by destruct e. Qed.

(** ** One step of the player *)

Lemma closeImpl_state self c p : state (closeImpl self c p).1.2 = playerClosed.
Proof. unfold closeImpl. case_bool_decide; done. Qed.

Lemma closeImpl_err self c p : err (closeImpl self c p).1.2 = err p.
Proof. unfold closeImpl. case_bool_decide; done. Qed.

Lemma setErrorImpl_state self c e p : state (setErrorImpl self c e p).2 = playerClosed.
Proof. unfold setErrorImpl. apply closeImpl_state. Qed.

Lemma setErrorImpl_err self c e p : err (setErrorImpl self c e p).2 = e.
Proof. unfold setErrorImpl. by rewrite closeImpl_err. Qed.

Lemma playImpl_cases fuel self c p c' p' :
  playImpl fuel self c p = Some (c', p') ->
  (c' = c /\ p' = p /\ (err p <> None \/ state p <> playerPaused))
  \/ (err p = None /\ state p = playerPaused /\
      exists e p1, fillLoop fuel p = Some (Failed e p1)
                   /\ (c', p') = setErrorImpl self c e p1)
  \/ (err p = None /\ state p = playerPaused /\
      exists p1, fillLoop fuel p = Some (Filled p1)
                 /\ c' = addPlayer c self
                 /\ p' = setHasLoop true (setState playerPlay p1)).
Proof.
  unfold playImpl. case_bool_decide as He.
  { intros [= <- <-]. left. auto. }
  case_bool_decide as Hs.
  { intros [= <- <-]. left. auto. }
  assert (err p = None) as He' by (by destruct (err p)).
  assert (state p = playerPaused) as Hs' by (by destruct (state p)).
  destruct (fillLoop fuel p) as [[p1|e p1]|] eqn:E; [| |done].
  - intros [= <- <-]. right. right. do 2 (split; [done|]).
    exists p1. split; [done|]. split; [done|].
    simpl. destruct (hasLoop p1) eqn:Eh; [|done].
    destruct p1; simpl in *; by subst.
  - intros E'. right. left. do 2 (split; [done|]). exists e, p1.
    split; [done|]. destruct (setErrorImpl self c e p1). by injection E' as <- <-.
Qed.

End PlayerFacts.

Section StepFacts.
Context {Src : Type} `{Reader Src}.
Variable maxBufferSize : nat.
Implicit Types (p : playerImpl Src) (w : @world Src) (c : context).

Abbreviation exec' := (exec maxBufferSize).
Abbreviation run' := (run maxBufferSize).
Abbreviation reachable' := (reachable maxBufferSize).

Lemma exec_closed_stays o w w' :
  exec' o w = Some w' ->
  state (w_player w) = playerClosed -> state (w_player w') = playerClosed.
Proof.
  destruct w as [self c p pc]. unfold exec; simpl. intros E Hc.
  destruct o; simpl in E.
  - destruct (playImpl _ _ _ _ _) as [[c' p']|] eqn:Ep; [|done].
    injection E as <-. simpl.
    apply playImpl_cases in Ep as [(_ & -> & _)|[(_ & Hp & _)|(_ & Hp & _)]];
      [done|congruence|congruence].
  - injection E as <-. simpl. unfold pauseImpl. rewrite Hc. done.
  - injection E as <-. simpl. unfold resetImpl. rewrite Hc. done.
  - pose proof (closeImpl_state self c p) as Hs.
    destruct (closeImpl self c p) as [[c' p'] r]. by injection E as <-.
  - by injection E as <-.
  - rewrite addBuffer_not_playing in E by congruence. by injection E as <-.
  - destruct pc; try done. destruct (wait _ p) as [[|]|]; try done;
      by injection E as <-.
  - destruct pc; try done. unfold loopRead in E.
    destruct (Read (src p) loopChunk) as [[data e] s']. by injection E as <-.
  - destruct pc as [| | |data e|]; try done. unfold loopStore in E.
    destruct (isFailure e).
    + pose proof (setErrorImpl_state self c e p) as Hs.
      destruct (setErrorImpl self c e p). by injection E as <-.
    + injection E as <-. simpl.
      destruct (bool_decide _ && _); [|done].
      unfold resetImpl. simpl. rewrite Hc. done.
Qed.

Lemma exec_err_kept o w w' :
  exec' o w = Some w' ->
  err (w_player w) <> None -> err (w_player w') <> None.
Proof.
  destruct w as [self c p pc]. unfold exec; simpl. intros E He.
  destruct o; simpl in E.
  - destruct (playImpl _ _ _ _ _) as [[c' p']|] eqn:Ep; [|done].
    injection E as <-. simpl.
    apply playImpl_cases in Ep as [(_ & -> & _)|[(Hp & _)|(Hp & _)]];
      [done|congruence|congruence].
  - injection E as <-. simpl. unfold pauseImpl. by case_bool_decide.
  - injection E as <-. simpl. unfold resetImpl. by case_bool_decide.
  - pose proof (closeImpl_err self c p) as Hs.
    destruct (closeImpl self c p) as [[c' p'] r]. injection E as <-.
    simpl in *. congruence.
  - by injection E as <-.
  - unfold addBuffer in E. destruct (negb _); [by injection E as <-|].
    destruct (_ =? 0); [done|]. by injection E as <-.
  - destruct pc; try done. destruct (wait _ p) as [[|]|]; try done;
      by injection E as <-.
  - destruct pc; try done. unfold loopRead in E.
    destruct (Read (src p) loopChunk) as [[data e] s']. by injection E as <-.
  - destruct pc as [| | |data e|]; try done. unfold loopStore in E.
    destruct (isFailure e) eqn:Ef.
    + pose proof (setErrorImpl_err self c e p) as Hs.
      destruct (setErrorImpl self c e p). injection E as <-. simpl in *.
      rewrite Hs. by apply isFailure_Some.
    + injection E as <-. simpl.
      destruct (bool_decide _ && _); [|done].
      unfold resetImpl. simpl. by case_bool_decide.
Qed.

Lemma exec_err_new o w w' :
  exec' o w = Some w' ->
  err (w_player w) = None -> err (w_player w') <> None ->
  state (w_player w') = playerClosed
  /\ recordsError maxBufferSize o w (err (w_player w')).
Proof.
  destruct w as [self c p pc]. unfold exec, recordsError; simpl. intros E He He'.
  destruct o; simpl in E.
  - destruct (playImpl _ _ _ _ _) as [[c' p']|] eqn:Ep; [|done].
    injection E as <-. simpl in *.
    apply playImpl_cases in Ep
      as [(_ & -> & _)|[(_ & Hs & e & p1 & Ef & Ep)|(_ & _ & p1 & Ef & _ & ->)]].
    + done.
    + pose proof (setErrorImpl_state self c e p1) as Hst.
      pose proof (setErrorImpl_err self c e p1) as Her.
      rewrite <- Ep in Hst, Her. simpl in *. split; [done|]. rewrite Her.
      split; [by eapply fillLoop_failed|]. left. eauto.
    + apply fillLoop_frame in Ef as (_ & Ee & _). simpl in *. congruence.
  - injection E as <-. simpl in *. unfold pauseImpl in He'.
    by case_bool_decide.
  - injection E as <-. simpl in *. unfold resetImpl in He'.
    by case_bool_decide.
  - pose proof (closeImpl_err self c p) as Hs.
    destruct (closeImpl self c p) as [[c' p'] r]. injection E as <-.
    simpl in *. congruence.
  - by injection E as <-.
  - unfold addBuffer in E. destruct (negb _); [by injection E as <-|].
    destruct (_ =? 0); [done|]. by injection E as <-.
  - destruct pc; try done. destruct (wait _ p) as [[|]|]; try done;
      by injection E as <-.
  - destruct pc; try done. unfold loopRead in E.
    destruct (Read (src p) loopChunk) as [[data e] s']. by injection E as <-.
  - destruct pc as [| | |data e|]; try done. unfold loopStore in E.
    destruct (isFailure e) eqn:Ef.
    + pose proof (setErrorImpl_err self c e p) as Hs.
      pose proof (setErrorImpl_state self c e p) as Hst.
      destruct (setErrorImpl self c e p). injection E as <-. simpl in *.
      rewrite Hs. split; [done|]. split; [done|]. right. eauto.
    + injection E as <-. simpl in *.
      destruct (bool_decide _ && _); [|done].
      unfold resetImpl in He'. simpl in He'. by case_bool_decide.
Qed.

Lemma reachable_err_closed w :
  reachable' w -> err (w_player w) <> None -> state (w_player w) = playerClosed.
Proof.
  induction 1 as [self c s|o w w' Hr IH E]; [done|].
  intros He'. destruct (decide (err (w_player w) = None)) as [He|He].
  - by eapply exec_err_new.
  - eapply exec_closed_stays; [done|]. by apply IH.
Qed.

Lemma reachable_run os w w' : reachable' w -> run' os w = Some w' -> reachable' w'.
Proof.
  revert w. induction os as [|o os IH]; intros w Hr; simpl.
  - by intros [= <-].
  - destruct (exec' o w) as [w1|] eqn:E; [|done].
    apply IH. by eapply reachable_step.
Qed.

Lemma run_closed_stays os w w' :
  run' os w = Some w' ->
  state (w_player w) = playerClosed -> state (w_player w') = playerClosed.
Proof.
  revert w. induction os as [|o os IH]; intros w; simpl.
  - by intros [= <-].
  - destruct (exec' o w) as [w1|] eqn:E; [|done].
    intros Hrun Hc. eapply IH; [done|]. by eapply exec_closed_stays.
Qed.

Lemma run_err_kept os w w' :
  run' os w = Some w' ->
  err (w_player w) <> None -> err (w_player w') <> None.
Proof.
  revert w. induction os as [|o os IH]; intros w; simpl.
  - by intros [= <-].
  - destruct (exec' o w) as [w1|] eqn:E; [|done].
    intros Hrun Hc. eapply IH; [done|]. by eapply exec_err_kept.
Qed.

End StepFacts.

Section BufferFacts.
Context {Src : Type} `{Reader Src}.
Variable maxBufferSize : nat.
Implicit Types (p : playerImpl Src) (w : @world Src) (c : context).

Lemma loopChunk_pos : 0 < loopChunk.
Proof. unfold loopChunk. lia. Qed.

Lemma addBuffer_shrinks c p out p' out' n :
  addBuffer c p out = Some (p', out', n) ->
  state p' = state p /\ length (buf p') <= length (buf p).
Proof.
  unfold addBuffer. destruct (negb _); [by intros [= <- <- <-]|].
  destruct (_ =? 0); [done|]. intros [= <- <- <-]. simpl.
  rewrite length_drop. split; [done|lia].
Qed.

Lemma exec_bufferBound o w w' :
  exec maxBufferSize o w = Some w' ->
  bufferBound maxBufferSize w -> bufferBound maxBufferSize w'.
Proof.
  pose proof loopChunk_pos as Hpos.
  destruct w as [self c p pc]. intros E Hb.
  destruct (decide (state p = playerClosed)) as [Hc|Hc].
  { left. by eapply (exec_closed_stays _ _ _ _ E). }
  destruct Hb as [Hb|[Hlen Hpc]]; [done|]. simpl in *.
  unfold exec in E; simpl in E. unfold bufferBound.
  destruct o; simpl in E.
  - destruct (playImpl _ _ _ _ _) as [[c' p']|] eqn:Ep; [|done].
    injection E as <-. simpl.
    apply playImpl_cases in Ep
      as [(_ & -> & _)|[(_ & _ & e & p1 & _ & Ep)|(_ & _ & p1 & Ef & _ & ->)]].
    + right. split; [done|].
      destruct (negb (hasLoop p) && hasLoop p); [done|]. done.
    + left. pose proof (setErrorImpl_state self c e p1) as Hs.
      by rewrite <- Ep in Hs.
    + right. apply fillLoop_bound in Ef. simpl.
      split; [lia|].
      destruct (negb (hasLoop p) && true); [done|].
      destruct pc as [| | |data e|]; try done; lia.
  - injection E as <-. simpl. right. unfold pauseImpl.
    case_bool_decide; done.
  - injection E as <-. simpl. right. unfold resetImpl.
    rewrite bool_decide_eq_false_2 by done. simpl.
    split; [lia|]. destruct pc as [| | |data e|]; try done; lia.
  - left. pose proof (closeImpl_state self c p) as Hs.
    destruct (closeImpl self c p) as [[c' p'] r]. by injection E as <-.
  - injection E as <-. by right.
  - destruct (addBuffer c p out) as [[[p' out'] n]|] eqn:Ea; [|done].
    injection E as <-. simpl. apply addBuffer_shrinks in Ea as [_ Hle].
    right. split; [lia|]. destruct pc as [| | |data e|]; try done; lia.
  - destruct pc; try done. unfold wait, shouldWait in E.
    destruct (state p) eqn:Es; try done.
    destruct (Nat.leb_spec maxBufferSize (length (buf p))); [done|].
    injection E as <-. simpl. right. split; [lia|lia].
  - destruct pc; try done. unfold loopRead in E.
    pose proof (Read_len (src p) loopChunk) as Hr.
    destruct (Read (src p) loopChunk) as [[data e] s']. injection E as <-.
    simpl in *. right. split; [lia|]. split; [lia|done].
  - destruct pc as [| | |data e|]; try done. unfold loopStore in E.
    destruct (isFailure e).
    + left. pose proof (setErrorImpl_state self c e p) as Hs.
      destruct (setErrorImpl self c e p). by injection E as <-.
    + injection E as <-. simpl. right.
      destruct (bool_decide _ && _).
      * unfold resetImpl. simpl. rewrite bool_decide_eq_false_2 by done.
        simpl. split; [lia|done].
      * simpl. rewrite length_app. split; [lia|done].
Qed.

Lemma reachable_bufferBound w :
  reachable maxBufferSize w -> bufferBound maxBufferSize w.
Proof.
  induction 1 as [self c s|o w w' Hr IH E].
  - right. simpl. pose proof loopChunk_pos. split; [lia|done].
  - by eapply exec_bufferBound.
Qed.

End BufferFacts.

(** ** The claims about the state machine *)

Section MachineFacts.
Context {Src : Type} `{Reader Src}.
Variable maxBufferSize : nat.
Implicit Types (p : playerImpl Src) (w : @world Src) (c : context).

(** C9: [Pause] acts on a Playing player only: it becomes Paused and its
    buffer, volume, recorded error, source and loop flag are kept, and so
    are the context and the fill loop; on a Paused or Closed player
    nothing changes. *)
Theorem Pause_only_from_playing w :
  exists w',
    exec maxBufferSize OpPause w = Some w'
    /\ w_ctx w' = w_ctx w /\ w_loop w' = w_loop w /\ w_self w' = w_self w
    /\ (state (w_player w) = playerPlay ->
        state (w_player w') = playerPaused
        /\ buf (w_player w') = buf (w_player w)
        /\ volume (w_player w') = volume (w_player w)
        /\ err (w_player w') = err (w_player w)
        /\ src (w_player w') = src (w_player w)
        /\ hasLoop (w_player w') = hasLoop (w_player w))
    /\ (state (w_player w) = playerPaused \/ state (w_player w) = playerClosed ->
        w' = w).
Proof.
  destruct w as [self c p pc]. eexists. split; [reflexivity|]. simpl.
  do 3 (split; [done|]). unfold pauseImpl. split.
  - intros ->. simpl. done.
  - intros Hs. rewrite bool_decide_eq_true_2; [done|].
    destruct Hs as [-> | ->]; done.
Qed.

(** C6: when the fill loop has read end-of-stream into an empty buffer of
    a Playing player, its next move makes the player Paused; no error is
    recorded, [Err] is nil before and after, and the loop goes back to
    waiting. *)
Theorem loop_pauses_at_end_of_stream w data :
  reachable maxBufferSize w ->
  state (w_player w) = playerPlay ->
  w_loop w = LoopGot data (Some io_EOF) ->
  buf (w_player w) ++ data = [] ->
  exists w',
    exec maxBufferSize OpLoopStore w = Some w'
    /\ state (w_player w') = playerPaused
    /\ Err (w_player w) = None /\ Err (w_player w') = None
    /\ buf (w_player w') = []
    /\ w_loop w' = LoopAtWait /\ w_ctx w' = w_ctx w.
Proof.
  intros Hr Hs Hpc Hb.
  assert (err (w_player w) = None) as He.
  { destruct (err (w_player w)) eqn:E; [|done].
    pose proof (reachable_err_closed _ _ Hr) as Hc.
    rewrite E in Hc. rewrite Hs in Hc. discriminate Hc. done. }
  destruct w as [self c p pc]. simpl in *. subst pc.
  unfold exec, loopStore. simpl. rewrite Hb. simpl.
  eexists. split; [reflexivity|]. simpl.
  unfold resetImpl, Err. simpl. rewrite Hs. simpl. done.
Qed.

(** C2, amended: while the player is not Closed its buffer stays below
    [2 * maxBufferSize + 4096] bytes, whatever the calls from outside, the
    mixing and the fill loop do; [maxBufferSize] itself is only the level
    under which [playImpl] and [loop] go on reading. *)
Theorem buffer_stays_bounded w :
  reachable maxBufferSize w ->
  state (w_player w) <> playerClosed ->
  0 <= length (buf (w_player w))
  /\ length (buf (w_player w)) < 2 * maxBufferSize + loopChunk.
Proof.
  intros Hr Hs. split; [lia|].
  destruct (reachable_bufferBound _ _ Hr) as [Hc|[Hb _]]; [done|exact Hb].
Qed.

End MachineFacts.

(** ** The fill of [Play] over a source of known length *)

Section FullFacts.
Context {Src : Type} `{FullReader Src}.
Variable maxBufferSize : nat.
Implicit Types (p : playerImpl Src).


End FullFacts.

(** ** Examples, and where the source departs from the description *)

Lemma reachable_after {Src : Type} `{Reader Src} maxBufferSize os (w : @world Src) :
  reachable maxBufferSize w -> reachable maxBufferSize (after maxBufferSize os w).
Proof.
  intros Hr. unfold after.
  destruct (run maxBufferSize os w) as [w'|] eqn:E; simpl; [|done].
  by eapply reachable_run.
Qed.

Lemma reachable_resumed : reachable max8 resumed.
Proof. apply reachable_after, reachable_init. Qed.

Lemma reachable_overfull : reachable max8 overfull.
Proof. apply reachable_after, reachable_resumed. Qed.

Lemma reachable_drained : reachable max8 drained.
Proof. apply reachable_after, reachable_init. Qed.

Lemma reachable_broken : reachable max8 broken.
Proof. apply reachable_after, reachable_init. Qed.



(** C2 as stated fails: the state reached by [Play], a mixing of two
    samples, [Pause] and [Play] is Playing with twelve bytes buffered,
    while [maxBufferSize] is eight. *)
Lemma buffer_exceeds_maxBufferSize :
  reachable max8 overfull
  /\ state (w_player overfull) <> playerClosed
  /\ length (buf (w_player overfull)) = 12
  /\ ~ length (buf (w_player overfull)) <= max8.
Proof.
  split; [exact reachable_overfull|].
  split; [vm_compute; discriminate|].
  split; [reflexivity|]. vm_compute. lia.
Qed.

(** The bound cannot be lowered: a Playing player can hold
    [2 * maxBufferSize + 4096 - 1] bytes. *)
Lemma buffer_bound_is_reached :
  reachable max8 brimful
  /\ state (w_player brimful) = playerPlay
  /\ S (length (buf (w_player brimful))) = 2 * max8 + loopChunk.
Proof.
  split; [apply reachable_after, reachable_init|].
  split; vm_compute; reflexivity.
Qed.

(** The bound at the state with twelve bytes. *)
Lemma buffer_stays_bounded_witness :
  reachable max8 overfull
  /\ state (w_player overfull) <> playerClosed
  /\ 0 <= length (buf (w_player overfull))
  /\ length (buf (w_player overfull)) < 2 * max8 + loopChunk.
Proof.
  assert (state (w_player overfull) <> playerClosed) as Hs
    by (vm_compute; discriminate).
  split; [exact reachable_overfull|]. split; [exact Hs|].
  exact (buffer_stays_bounded max8 overfull reachable_overfull Hs).
Defined.

(** The player over four bytes, once they are mixed, is paused by its loop. *)
Lemma loop_pauses_at_end_of_stream_witness :
  reachable max8 drained
  /\ state (w_player drained) = playerPlay
  /\ w_loop drained = LoopGot [] (Some io_EOF)
  /\ buf (w_player drained) ++ [] = []
  /\ exists w',
       exec max8 OpLoopStore drained = Some w'
       /\ state (w_player w') = playerPaused /\ Err (w_player w') = None.
Proof.
  split; [exact reachable_drained|]. do 3 (split; [reflexivity|]).
  destruct (loop_pauses_at_end_of_stream max8 drained [] reachable_drained
              eq_refl eq_refl eq_refl) as (w' & E & Hs & _ & He & _).
  exists w'. split; [exact E|]. split; [exact Hs|exact He].
Defined.

(** [Pause] on a playing player. *)
Lemma Pause_only_from_playing_witness :
  state (w_player playingWorld) = playerPlay
  /\ exists w',
       exec max8 OpPause playingWorld = Some w'
       /\ state (w_player w') = playerPaused
       /\ buf (w_player w') = buf (w_player playingWorld).
Proof.
  split; [reflexivity|].
  destruct (Pause_only_from_playing max8 playingWorld)
    as (w' & E & _ & _ & _ & Hplay & _).
  exists w'. split; [exact E|].
  destruct (Hplay eq_refl) as (Hs & Hb & _). split; [exact Hs|exact Hb].
Defined.

(** *** [Close] and the recorded error *)

Section CloseFacts.
Context {Src : Type}.
Implicit Types (p : playerImpl Src) (c : context).

(** A second [Close] changes nothing and returns nil. *)
Lemma closeImpl_twice self c p :
  let '(c1, p1, r1) := closeImpl self c p in
  closeImpl self c1 p1 = (c1, p1, None).
Proof.
  unfold closeImpl, removePlayer. case_bool_decide as Hs; simpl.
  - rewrite bool_decide_eq_true_2 by done. do 2 f_equal. f_equal.
    apply set_eq. intros x. rewrite !elem_of_difference. tauto.
  - do 2 f_equal. f_equal.
    apply set_eq. intros x. rewrite !elem_of_difference. tauto.
Qed.

(** [setErrorImpl] closes the player itself, so a later [Close] finds it
    Closed and returns nil, whatever the error that [Err] reports. *)
Lemma closeImpl_after_setErrorImpl self c e p :
  Err (setErrorImpl self c e p).2 = e
  /\ state (setErrorImpl self c e p).2 = playerClosed
  /\ (closeImpl self (setErrorImpl self c e p).1 (setErrorImpl self c e p).2).2 = None.
Proof.
  split; [apply setErrorImpl_err|]. split; [apply setErrorImpl_state|].
  pose proof (setErrorImpl_state self c e p) as Hs.
  unfold closeImpl at 1. rewrite bool_decide_eq_true_2 by done. done.
Qed.

End CloseFacts.

(** C4, the code at the failing input: the source of [worldFailing] fails
    at the second [Read] of [Play]; afterwards the player is Closed and
    [Err] reports the failure, and [Close] changes nothing and returns nil,
    not the recorded error. *)
Theorem Close_after_read_failure_returns_nil :
  run max8 [OpPlay 2] worldFailing = Some broken
  /\ Err (w_player broken) = Some (read_failure 5)
  /\ state (w_player broken) = playerClosed
  /\ closeImpl (w_self broken) (w_ctx broken) (w_player broken)
     = (w_ctx broken, w_player broken, None).
Proof. vm_compute. repeat split. Qed.

(** *** The one-byte case of the converter *)

Lemma allBytes_complete (b : byte) : In b allBytes.
Proof.
  assert (existsb (Byte.eqb b) allBytes = true) as Hex
    by (destruct b; vm_compute; reflexivity).
  apply existsb_exists in Hex as (x & Hin & Heq).
  apply Byte.byte_dec_bl in Heq. by subst.
Qed.

(** The two-byte case is as described: the sample is the little-endian
    signed value over [2^15], inside [-1, 1). *)
Lemma sample16_range (lo hi : byte) : sample16_ok lo hi = true.
Proof.
  assert (forallb (fun lo => forallb (sample16_ok lo) allBytes) allBytes = true)
    as Hall by (vm_compute; reflexivity).
  rewrite forallb_forall in Hall.
  specialize (Hall lo (allBytes_complete lo)).
  rewrite forallb_forall in Hall.
  exact (Hall hi (allBytes_complete hi)).
Qed.

(** In the one-byte case the subtraction wraps: the sample of byte [b] is
    [((b + 128) mod 256) / 128], between 0 and 2. *)
Lemma sample8_wraps (b : byte) :
  sample 1 [b] 0 = f32_dyadic (uint8 (byteZ b + 128)) 7
  /\ f32leb f32zero (sample 1 [b] 0) = true
  /\ f32ltb (sample 1 [b] 0) (f32_of_Z 2) = true.
Proof. destruct b; vm_compute; repeat split. Qed.

(** C3, the code at the failing input: in an eight-bit context at volume
    1, the bytes 0 and 127 add 1 and 255/128 to a silent destination, not
    -1 and -1/128; neither is below 1.  The bytes 128 and 255 add 0 and
    127/128, as described. *)
Theorem sample8_out_of_range :
  (exists p',
     addBuffer ctx8 playing8 (silence 4)
     = Some (p', [f32_of_Z 1; f32_dyadic 255 7; f32zero; f32_dyadic 127 7], 4))
  /\ sample 1 [x00] 0 = f32_of_Z 1
  /\ sample 1 [x7f] 0 = f32_dyadic 255 7
  /\ f32ltb (sample 1 [x00] 0) (f32_of_Z 1) = false
  /\ f32ltb (sample 1 [x7f] 0) (f32_of_Z 1) = false
  /\ f32_dyadic (byteZ x00 - 128) 7 = f32_of_Z (-1)
  /\ SFeqb (sample 1 [x00] 0) (f32_dyadic (byteZ x00 - 128) 7) = false.
Proof.
  split; [eexists; vm_compute; reflexivity|]. vm_compute. repeat split.
Qed.

(** ** The recorded error, with the hand-overs of the mutex *)

Section FineFacts.
Context {Src : Type} `{Reader Src}.
Variable maxBufferSize : nat.
Implicit Types (p : playerImpl Src) (w : @fineWorld Src) (c : context) (k : kont).

Lemma closeBody_state p : state (closeBody p).1 = playerClosed.
Proof. unfold closeBody. by case_bool_decide. Qed.

Lemma closeBody_err p : err (closeBody p).1 = err p.
Proof. unfold closeBody. by case_bool_decide. Qed.

(** [closeImpl] is [removePlayer] followed by [closeBody]. *)
Lemma closeImpl_closeBody self c p :
  closeImpl self c p = (removePlayer c self, (closeBody p).1, (closeBody p).2).
Proof. unfold closeImpl, closeBody. by case_bool_decide. Qed.

Lemma resume_state k self c p pc :
  state (resume k self c p pc).1.1.2 = state p
  \/ (k = KCloseBody /\ state (resume k self c p pc).1.1.2 = playerClosed).
Proof.
  destruct k; simpl; try (by left).
  - right. split; [done|]. apply closeBody_state.
  - left. by destruct (hasLoop p).
Qed.

Lemma resume_err k self c p pc : err (resume k self c p pc).1.1.2 = err p.
Proof.
  destruct k; simpl; try done.
  - apply closeBody_err.
  - by destruct (hasLoop p).
Qed.

Lemma loopStore_state self c data e p :
  isFailure e = false ->
  err (loopStore self c data e p).1.2 = err p
  /\ (state (loopStore self c data e p).1.2 = state p
      \/ (state p <> playerClosed
          /\ state (loopStore self c data e p).1.2 = playerPaused)).
Proof.
  intros Hok. unfold loopStore. rewrite Hok. simpl.
  destruct (bool_decide _ && _); [|by split; [|left]].
  unfold resetImpl. simpl. case_bool_decide as Hs; simpl; [by split; [|left]|].
  split; [done|]. by right.
Qed.

(** What a step does to the state and to the recorded error. *)
Lemma fineExec_state_err o w w' :
  fineExec maxBufferSize o w = Some w' ->
  (state (fw_player w) = playerClosed -> state (fw_player w') = playerClosed)
  /\ (err (fw_player w) <> None ->
      err (fw_player w') <> None
      /\ (state (fw_player w) <> playerPlay -> state (fw_player w') <> playerPlay))
  /\ (err (fw_player w) = None -> err (fw_player w') <> None ->
      fineRecordsError maxBufferSize o w (err (fw_player w'))).
Proof.
  destruct w as [self c p pc lk calls]. unfold fineExec, fineRecordsError; simpl.
  intros E. destruct o; simpl in E.
  - case_bool_decide as He; [injection E as <-; simpl; by repeat split|].
    case_bool_decide as Hs; [injection E as <-; simpl; by repeat split|].
    destruct (fillLoop maxBufferSize fuel p) as [[p1|e p1]|] eqn:Ef; [| |done].
    + pose proof (fillLoop_frame _ _ _ _ Ef) as (_ & He1 & Hs1 & _).
      injection E as <-. simpl in *. split; [congruence|].
      split; [done|]. intros _ He'. congruence.
    + pose proof (fillLoop_frame _ _ _ _ Ef) as (_ & He1 & Hs1 & _).
      pose proof (fillLoop_failed _ _ _ _ _ Ef) as Hfail.
      injection E as <-. simpl in *. split; [congruence|].
      split; [done|]. intros _ _. split; [done|]. left. eauto.
  - injection E as <-. simpl. unfold pauseImpl.
    case_bool_decide as Hs; simpl; repeat split; try done; congruence.
  - injection E as <-. simpl. unfold resetImpl.
    case_bool_decide as Hs; simpl; repeat split; try done; congruence.
  - injection E as <-. simpl. by repeat split.
  - injection E as <-. simpl. by repeat split.
  - destruct (addBuffer c p out) as [[[p' out'] n]|] eqn:Ea; [|done].
    injection E as <-. simpl.
    assert (state p' = state p /\ err p' = err p) as [-> ->].
    { unfold addBuffer in Ea. destruct (negb _); [by injection Ea as <- <- <-|].
      destruct (_ =? 0); [done|]. by injection Ea as <- <- <-. }
    by repeat split.
  - destruct (calls !! i) as [k|]; [|done].
    pose proof (resume_state k self c p pc) as Hst.
    pose proof (resume_err k self c p pc) as Her.
    destruct (resume k self c p pc) as [[[c' p'] pc'] rest].
    injection E as <-. simpl in *. rewrite Her.
    split; [destruct Hst as [->|[_ ->]]; done|].
    split; [|done]. intros He. split; [done|].
    destruct Hst as [->|[_ ->]]; done.
  - destruct pc; try done. destruct lk; [done|].
    destruct (wait _ p) as [[|]|]; try done; injection E as <-; by repeat split.
  - destruct pc; try done. destruct lk; [done|]. unfold loopRead in E.
    destruct (Read (src p) loopChunk) as [[data e] s']. injection E as <-.
    by repeat split.
  - destruct pc as [| | |data e|]; try done. destruct lk; [done|].
    destruct (isFailure e) eqn:Ef.
    + injection E as <-. simpl. split; [done|].
      split; [intros _; split; [by apply isFailure_Some|done]|].
      intros _ _. split; [done|]. right. eauto.
    + pose proof (loopStore_state self c data e p Ef) as [Her Hst].
      destruct (loopStore self c data e p) as [[c' p'] pc'].
      injection E as <-. simpl in *. rewrite Her.
      split; [destruct Hst as [->|[? _]]; done|].
      split; [|done]. intros He. split; [done|].
      destruct Hst as [->|[_ ->]]; done.
  - destruct lk as [[| | |]|]; try done; injection E as <-; simpl.
    + by repeat split.
    + rewrite closeBody_state, closeBody_err. by repeat split.
Qed.

Lemma fineRun_state_err os w w' :
  fineRun maxBufferSize os w = Some w' ->
  (state (fw_player w) = playerClosed -> state (fw_player w') = playerClosed)
  /\ (err (fw_player w) <> None ->
      err (fw_player w') <> None
      /\ (state (fw_player w) <> playerPlay -> state (fw_player w') <> playerPlay)).
Proof.
  revert w. induction os as [|o os IH]; intros w; simpl.
  - intros [= <-]. by repeat split.
  - destruct (fineExec maxBufferSize o w) as [w1|] eqn:E; [|done].
    intros Hrun. apply fineExec_state_err in E as (Hc & He & _).
    apply IH in Hrun as (Hc' & He'). split; [auto|].
    intros Herr. destruct (He Herr) as [He1 Hp1].
    destruct (He' He1) as [He2 Hp2]. auto.
Qed.

Lemma Exists_app_l {A} (P : A -> Prop) (l : list A) x :
  Exists P l -> Exists P (l ++ [x]).
Proof. intros Hex. apply Exists_app. by left. Qed.

Lemma Exists_insert_other {A} (P : A -> Prop) (l : list A) i x y :
  Exists P l -> l !! i = Some x -> (P x -> P y) -> Exists P (<[i:=y]> l).
Proof.
  rewrite !Exists_exists. intros (z & Hz & HPz) Hi Hxy.
  apply list_elem_of_lookup in Hz as (j & Hj).
  destruct (decide (i = j)) as [->|Hne].
  - exists y. split.
    + apply list_elem_of_lookup. exists j.
      apply list_lookup_insert_eq. by eapply lookup_lt_Some.
    + apply Hxy. congruence.
  - exists z. split; [|done]. apply list_elem_of_lookup. exists j.
    by rewrite list_lookup_insert_ne.
Qed.

Lemma Exists_delete_other {A} (P : A -> Prop) (l : list A) i x :
  Exists P l -> l !! i = Some x -> ~ P x -> Exists P (delete i l).
Proof.
  rewrite !Exists_exists. intros (z & Hz & HPz) Hi Hx.
  apply list_elem_of_lookup in Hz as (j & Hj).
  exists z. split; [|done]. apply list_elem_of_lookup.
  destruct (decide (j < i)) as [Hlt|Hge].
  - exists j. by rewrite list_lookup_delete_lt.
  - assert (j <> i) as Hne by (intros ->; congruence).
    exists (j - 1). rewrite list_lookup_delete_ge by lia.
    replace (S (j - 1)) with j by lia. done.
Qed.

(** A recorded error on a player that is not Closed means that the call
    that recorded it, or another one, is on its way through
    [closeImpl]. *)
Lemma fineExec_closing o w w' :
  fineExec maxBufferSize o w = Some w' ->
  (err (fw_player w) <> None ->
   state (fw_player w) = playerClosed \/ closing w) ->
  err (fw_player w') <> None ->
  state (fw_player w') = playerClosed \/ closing w'.
Proof.
  intros E Hinv He'.
  pose proof (fineExec_state_err o w w' E) as (Hc & _ & Hnew).
  destruct (decide (err (fw_player w) = None)) as [He|He].
  { right. destruct (Hnew He He') as (Hf & [(fuel & p1 & -> & Hs & Ef)|(data & -> & Hpc)]).
    - destruct w as [self c p pc lk calls]. simpl in *.
      rewrite He, Hs, Ef in E. simpl in E. injection E as <-.
      left. simpl. apply Exists_app. right. by constructor.
    - destruct w as [self c p pc lk calls]. simpl in *. subst pc.
      destruct lk; [done|]. rewrite Hf in E. injection E as <-.
      right. simpl. eauto. }
  destruct (Hinv He) as [Hclosed|Hcl]; [left; auto|].
  destruct w as [self c p pc lk calls]. unfold closing in *. simpl in *.
  unfold fineExec in E; simpl in E. destruct o; simpl in E.
  - case_bool_decide; [injection E as <-; by right|]. done.
  - injection E as <-. by right.
  - injection E as <-. by right.
  - injection E as <-. right. simpl.
    destruct Hcl as [Hcl|Hcl]; [left; by apply Exists_app_l|by right].
  - injection E as <-. by right.
  - destruct (addBuffer c p out) as [[[p' out'] n]|]; [|done].
    injection E as <-. by right.
  - destruct (calls !! i) as [k|] eqn:Ei; [|done].
    destruct k; simpl in E.
    + injection E as <-. simpl.
      right. destruct Hcl as [Hcl|Hcl]; [left|by right].
      by eapply Exists_insert_other.
    + injection E as <-. simpl. left. apply closeBody_state.
    + injection E as <-. simpl.
      right. destruct Hcl as [Hcl|Hcl]; [left|by right].
      eapply Exists_insert_other; [done|done|done].
    + destruct (hasLoop p); simpl in E; injection E as <-; simpl; right;
        (destruct Hcl as [Hcl|Hcl]; [left|by right]);
        by eapply Exists_delete_other.
  - destruct pc; try done. destruct lk; [done|].
    destruct (wait _ p) as [[|]|]; try done; injection E as <-; by right.
  - destruct pc; try done. destruct lk; [done|]. unfold loopRead in E.
    destruct (Read (src p) loopChunk) as [[data e] s']. injection E as <-.
    by right.
  - destruct pc as [| | |data e|]; try done. destruct lk; [done|].
    destruct (isFailure e).
    + injection E as <-. right. right. simpl. eauto.
    + destruct (loopStore self c data e p) as [[c' p'] pc'].
      injection E as <-. right. simpl.
      destruct Hcl as [Hcl|(k & Hk & _)]; [by left|done].
  - destruct lk as [[| | |]|]; try done; injection E as <-; simpl.
    + right. right. eauto.
    + left. apply closeBody_state.
Qed.

Lemma fineReachable_closing w :
  fineReachable maxBufferSize w ->
  err (fw_player w) <> None ->
  state (fw_player w) = playerClosed \/ closing w.
Proof.
  induction 1 as [self c s|o w w' Hr IH E]; [done|].
  by eapply fineExec_closing.
Qed.

(** A call on its way through [closeImpl] gets there: at most two of its
    own steps later the player is Closed. *)
Lemma closing_closes w :
  closing w ->
  exists os w',
    length os <= 2 /\ Forall isResume os
    /\ fineRun maxBufferSize os w = Some w'
    /\ state (fw_player w') = playerClosed.
Proof.
  destruct w as [self c p pc lk calls]. unfold closing. simpl.
  intros [Hcl|(k & -> & Hk)].
  - apply Exists_exists in Hcl as (k & Hin & Hk).
    apply list_elem_of_lookup in Hin as (i & Hi).
    assert (isResume (FResume i)) as Hres by (right; eauto).
    destruct k; try done.
    + eexists [FResume i; FResume i], _. split; [simpl; lia|].
      split; [repeat (constructor; [exact Hres|]); constructor|].
      simpl. rewrite Hi. simpl.
      rewrite list_lookup_insert_eq by (by eapply lookup_lt_Some). simpl.
      split; [reflexivity|]. simpl. apply closeBody_state.
    + eexists [FResume i], _. split; [simpl; lia|].
      split; [repeat (constructor; [exact Hres|]); constructor|].
      simpl. rewrite Hi. simpl. split; [reflexivity|]. simpl.
      apply closeBody_state.
  - assert (isResume FLoopResume) as Hres by (by left).
    destruct k; try done.
    + eexists [FLoopResume; FLoopResume], _. split; [simpl; lia|].
      split; [repeat (constructor; [exact Hres|]); constructor|]. simpl.
      split; [reflexivity|]. simpl. apply closeBody_state.
    + eexists [FLoopResume], _. split; [simpl; lia|].
      split; [repeat (constructor; [exact Hres|]); constructor|]. simpl.
      split; [reflexivity|]. simpl. apply closeBody_state.
Qed.

Lemma fineReachable_run os w w' :
  fineReachable maxBufferSize w -> fineRun maxBufferSize os w = Some w' ->
  fineReachable maxBufferSize w'.
Proof.
  revert w. induction os as [|o os IH]; intros w Hr; simpl.
  - by intros [= <-].
  - destruct (fineExec maxBufferSize o w) as [w1|] eqn:E; [|done].
    apply IH. by eapply fineReachable_step.
Qed.

Lemma fineReachable_after os w :
  fineReachable maxBufferSize w ->
  fineReachable maxBufferSize (fineAfter maxBufferSize os w).
Proof.
  intros Hr. unfold fineAfter.
  destruct (fineRun maxBufferSize os w) as [w'|] eqn:E; simpl; [|done].
  by eapply fineReachable_run.
Qed.

(** C7, amended: a recorded error is never lost, and the player that has
    one is Closed, or a call is on its way through [closeImpl] and closes
    it within two of its own steps; until then the player does not start
    to play.  A Closed player stays Closed whatever happens; and an error
    is recorded only where a [Read] failed, in [playImpl] or in [loop]. *)
Theorem recorded_error_closes_after_hand_over w :
  fineReachable maxBufferSize w ->
  (Err (fw_player w) <> None ->
     state (fw_player w) = playerClosed \/ closing w)
  /\ (closing w ->
      exists os w',
        length os <= 2 /\ Forall isResume os
        /\ fineRun maxBufferSize os w = Some w'
        /\ state (fw_player w') = playerClosed)
  /\ (forall os w', fineRun maxBufferSize os w = Some w' ->
        (state (fw_player w) = playerClosed -> state (fw_player w') = playerClosed)
        /\ (Err (fw_player w) <> None ->
            Err (fw_player w') <> None
            /\ (state (fw_player w) <> playerPlay ->
                state (fw_player w') <> playerPlay)))
  /\ (forall o w', fineExec maxBufferSize o w = Some w' ->
        Err (fw_player w) = None -> Err (fw_player w') <> None ->
        fineRecordsError maxBufferSize o w (Err (fw_player w'))).
Proof.
  intros Hr. unfold Err. split; [by apply fineReachable_closing|].
  split; [apply closing_closes|].
  split; [intros os w' Hrun; by apply (fineRun_state_err os w w')|].
  intros o w' E. by apply (fineExec_state_err o w w').
Qed.

End FineFacts.

Lemma fineReachable_halfClosed : fineReachable max8 halfClosed.
Proof. apply fineReachable_after, fineReachable_init. Qed.

(** C7 as stated fails: the loop of a playing player has met a failed
    [Read], written it to [p.err] and given the mutex up in [closeImpl];
    [Err] is not nil and the player is Playing, not Closed: the callback
    still mixes its samples, and [Pause] makes it Paused. *)
Lemma error_recorded_while_playing :
  fineReachable max8 halfClosed
  /\ Err (fw_player halfClosed) = Some (read_failure 5)
  /\ IsPlaying (fw_player halfClosed) = true
  /\ state (fw_player halfClosed) <> playerClosed
  /\ (exists w',
        fineExec max8 (FMix (silence 2)) halfClosed = Some w'
        /\ UnplayedBufferSize (fw_player halfClosed) = 4
        /\ UnplayedBufferSize (fw_player w') = 0)
  /\ (exists w',
        fineExec max8 FPause halfClosed = Some w'
        /\ state (fw_player w') = playerPaused
        /\ Err (fw_player w') = Some (read_failure 5)).
Proof.
  split; [exact fineReachable_halfClosed|].
  split; [reflexivity|]. split; [reflexivity|].
  split; [vm_compute; discriminate|].
  split; eexists; (split; [vm_compute; reflexivity|]); split; reflexivity.
Qed.

(** The player whose loop is inside [closeImpl] with the failure. *)
Lemma recorded_error_closes_after_hand_over_witness :
  fineReachable max8 halfClosed
  /\ Err (fw_player halfClosed) <> None
  /\ closing halfClosed
  /\ exists os w',
       length os <= 2 /\ Forall isResume os
       /\ fineRun max8 os halfClosed = Some w'
       /\ state (fw_player w') = playerClosed.
Proof.
  assert (Err (fw_player halfClosed) <> None) as He by (vm_compute; discriminate).
  assert (state (fw_player halfClosed) <> playerClosed) as Hs
    by (vm_compute; discriminate).
  destruct (recorded_error_closes_after_hand_over max8 halfClosed
              fineReachable_halfClosed) as (Hinv & Hprog & _).
  assert (closing halfClosed) as Hcl by (destruct (Hinv He) as [Hc|Hc]; [done|exact Hc]).
  split; [exact fineReachable_halfClosed|]. split; [exact He|].
  split; [exact Hcl|]. exact (Hprog Hcl).
Defined.

Section Sim.
Context {Src : Type} `{Reader Src}.
Variable maxBufferSize : nat.

(** Each step of [exec] is what the steps with hand-overs give when the
    call goes on at once, with nothing in between. *)
Lemma exec_fineRun o (w w' : @world Src) :
  exec maxBufferSize o w = Some w' ->
  exists fos,
    length fos <= 3
    /\ fineRun maxBufferSize fos (settled w) = Some (settled w').
Proof.
  destruct w as [self c p pc]. unfold exec; simpl. intros E. destruct o.
  - unfold playImpl in E.
    case_bool_decide as He.
    { injection E as <-. exists [FPlay fuel]. split; [simpl; lia|].
      simpl. unfold fineExec. simpl. rewrite bool_decide_eq_true_2 by done.
      destruct (hasLoop p); done. }
    case_bool_decide as Hs.
    { injection E as <-. exists [FPlay fuel]. split; [simpl; lia|].
      simpl. unfold fineExec. simpl. rewrite bool_decide_eq_false_2 by (intros X; by apply X).
      rewrite bool_decide_eq_true_2 by done.
      destruct (hasLoop p); done. }
    destruct (fillLoop maxBufferSize fuel p) as [[p1|e p1]|] eqn:Ef; [| |done].
    + pose proof (fillLoop_frame _ _ _ _ Ef) as (_ & _ & _ & Hl). simpl in Hl.
      injection E as <-. exists [FPlay fuel; FResume 0; FResume 0].
      split; [simpl; lia|].
      simpl.
      rewrite bool_decide_eq_false_2 by (intros X; by apply X).
      rewrite bool_decide_eq_false_2 by (intros X; by apply X). rewrite Ef.
      simpl. rewrite Hl.
      destruct (hasLoop p); done.
    + pose proof (fillLoop_frame _ _ _ _ Ef) as (_ & _ & _ & Hl). simpl in Hl.
      unfold setErrorImpl in E. rewrite closeImpl_closeBody in E. simpl in E.
      injection E as <-. exists [FPlay fuel; FResume 0; FResume 0].
      split; [simpl; lia|].
      simpl.
      rewrite bool_decide_eq_false_2 by (intros X; by apply X).
      rewrite bool_decide_eq_false_2 by (intros X; by apply X). rewrite Ef.
      simpl.
      assert (hasLoop (closeBody (setErr e p1)).1 = hasLoop p) as ->.
      { unfold closeBody. by case_bool_decide. }
      destruct (hasLoop p); done.
  - injection E as <-. exists [FPause]. split; [simpl; lia|done].
  - injection E as <-. exists [FReset]. split; [simpl; lia|done].
  - rewrite closeImpl_closeBody in E. injection E as <-.
    exists [FClose; FResume 0; FResume 0]. split; [simpl; lia|]. done.
  - injection E as <-. exists [FSetVolume v]. split; [simpl; lia|done].
  - destruct (addBuffer c p out) as [[[p' out'] n]|] eqn:Ea; [|done].
    injection E as <-. exists [FMix out]. split; [simpl; lia|].
    simpl. unfold fineExec. simpl. by rewrite Ea.
  - destruct pc; try done.
    destruct (wait maxBufferSize p) as [[|]|] eqn:Ew; try done;
      injection E as <-; exists [FLoopWait]; (split; [simpl; lia|]);
      simpl; unfold fineExec; simpl; by rewrite Ew.
  - destruct pc; try done. destruct (loopRead p) as [p' pc'] eqn:Er.
    injection E as <-. exists [FLoopRead]. split; [simpl; lia|].
    simpl. unfold fineExec. simpl. by rewrite Er.
  - destruct pc as [| | |data e|]; try done.
    destruct (loopStore self c data e p) as [[c' p'] pc'] eqn:Es.
    injection E as <-. destruct (isFailure e) eqn:Efail.
    + exists [FLoopStore; FLoopResume; FLoopResume]. split; [simpl; lia|].
      unfold loopStore in Es. rewrite Efail in Es. unfold setErrorImpl in Es.
      rewrite closeImpl_closeBody in Es. injection Es as <- <- <-.
      simpl. by rewrite Efail.
    + exists [FLoopStore]. split; [simpl; lia|].
      simpl. unfold fineExec. simpl. by rewrite Efail, Es.
Qed.

Lemma reachable_fineReachable (w : @world Src) :
  reachable maxBufferSize w -> fineReachable maxBufferSize (settled w).
Proof.
  induction 1 as [self c s|o w w' Hr IH E]; [constructor|].
  apply exec_fineRun in E as (fos & _ & E).
  by eapply fineReachable_run.
Qed.

End Sim.

Section FineLoop.
Context {Src : Type} `{Reader Src}.
Variable maxBufferSize : nat.
Implicit Types (w : @fineWorld Src).

(** What a step does to the place of the loop inside [setError]. *)
Lemma fineExec_loopKont o w w' :
  fineExec maxBufferSize o w = Some w' ->
  fw_loopKont w' = fw_loopKont w
  \/ fw_loopKont w' <> None
  \/ state (fw_player w') = playerClosed.
Proof.
  destruct w as [self c p pc lk calls]. unfold fineExec; simpl.
  intros E. destruct o; simpl in E.
  - case_bool_decide; [injection E as <-; by left|].
    case_bool_decide; [injection E as <-; by left|].
    destruct (fillLoop maxBufferSize fuel p) as [[p1|e p1]|]; [| |done];
      injection E as <-; by left.
  - injection E as <-. by left.
  - injection E as <-. by left.
  - injection E as <-. by left.
  - injection E as <-. by left.
  - destruct (addBuffer c p out) as [[[p' out'] n]|]; [|done].
    injection E as <-. by left.
  - destruct (calls !! i) as [k|]; [|done].
    destruct (resume k self c p pc) as [[[c' p'] pc'] rest].
    injection E as <-. by left.
  - destruct pc; try done. destruct lk; [done|].
    destruct (wait _ p) as [[|]|]; try done; injection E as <-; by left.
  - destruct pc; try done. destruct lk; [done|]. unfold loopRead in E.
    destruct (Read (src p) loopChunk) as [[data e] s']. injection E as <-.
    by left.
  - destruct pc as [| | |data e|]; try done. destruct lk; [done|].
    destruct (isFailure e).
    + injection E as <-. right. by left.
    + destruct (loopStore self c data e p) as [[c' p'] pc'].
      injection E as <-. by left.
  - destruct lk as [[| | |]|]; try done; injection E as <-; simpl.
    + right. by left.
    + right. right. apply closeBody_state.
Qed.

(** A Playing player with a recorded error is one whose loop recorded it
    and has not yet got through [closeImpl]. *)
Lemma fineReachable_err_playing w :
  fineReachable maxBufferSize w ->
  err (fw_player w) <> None -> state (fw_player w) = playerPlay ->
  fw_loopKont w <> None.
Proof.
  induction 1 as [self c s|o w w' Hr IH E]; [done|].
  intros He' Hs'.
  pose proof (fineExec_state_err _ o w w' E) as (_ & Hkept & Hnew).
  pose proof (fineExec_loopKont o w w' E) as [Hk|[Hk|Hk]];
    [|done|congruence].
  destruct (decide (err (fw_player w) = None)) as [He|He].
  - remember (err (fw_player w')) as e' eqn:Ee.
    destruct (Hnew He He') as (Hf & [(fuel & p1 & -> & Hs & Ef)|(data & -> & Hpc)]).
    + exfalso. destruct w as [self c p pc lk calls]. simpl in *.
      rewrite He, Hs, Ef in E. simpl in E. injection E as Ew. subst w'.
      simpl in *. pose proof (fillLoop_frame _ _ _ _ Ef) as (_ & _ & Hs1 & _).
      simpl in Hs1. congruence.
    + destruct w as [self c p pc lk calls]. simpl in *. subst pc.
      destruct lk; [done|]. rewrite Hf in E. by injection E as <-.
  - rewrite Hk. apply IH; [done|].
    destruct (decide (state (fw_player w) = playerPlay)) as [|Hn]; [done|].
    destruct (Hkept He) as [_ Hp]. by destruct (Hp Hn).
Qed.

(** The end of the stream met by the loop of a Playing player with an
    empty buffer, with the hand-overs of the mutex: the store makes the
    player Paused, and no error is recorded before or after. *)
Lemma fineExec_pauses_at_end_of_stream w data :
  fineReachable maxBufferSize w ->
  state (fw_player w) = playerPlay ->
  fw_loop w = LoopGot data (Some io_EOF) -> fw_loopKont w = None ->
  buf (fw_player w) ++ data = [] ->
  exists w',
    fineExec maxBufferSize FLoopStore w = Some w'
    /\ state (fw_player w') = playerPaused
    /\ Err (fw_player w) = None /\ Err (fw_player w') = None
    /\ buf (fw_player w') = []
    /\ fw_loop w' = LoopAtWait /\ fw_ctx w' = fw_ctx w.
Proof.
  intros Hr Hs Hpc Hlk Hb.
  assert (err (fw_player w) = None) as He.
  { destruct (err (fw_player w)) eqn:E; [|done].
    destruct (fineReachable_err_playing w Hr); [by rewrite E|done|done]. }
  destruct w as [self c p pc lk calls]. simpl in *. subst pc lk.
  unfold fineExec, loopStore. simpl. rewrite Hb. simpl.
  eexists. split; [reflexivity|]. simpl.
  unfold resetImpl, Err. simpl. rewrite Hs. simpl. done.
Qed.

End FineLoop.

(** * Further facts about the player *)

Section ControlFacts.
Context {Src : Type} `{Reader Src}.
Variable maxBufferSize : nat.
Implicit Types (p : playerImpl Src) (w : @world Src) (c : context).

(** X1: [Reset] on a player that is not Closed empties the buffer and leaves
    the player Paused; volume, recorded error, source, loop, context and
    registration are kept.  On a Closed player it changes nothing. *)
Theorem Reset_empties_and_pauses w :
  exists w',
    exec maxBufferSize OpReset w = Some w'
    /\ w_ctx w' = w_ctx w /\ w_loop w' = w_loop w /\ w_self w' = w_self w
    /\ volume (w_player w') = volume (w_player w)
    /\ Err (w_player w') = Err (w_player w)
    /\ src (w_player w') = src (w_player w)
    /\ hasLoop (w_player w') = hasLoop (w_player w)
    /\ (state (w_player w) <> playerClosed ->
        state (w_player w') = playerPaused
        /\ UnplayedBufferSize (w_player w') = 0)
    /\ (state (w_player w) = playerClosed -> w' = w).
Proof.
  destruct w as [self c p pc]. eexists. split; [reflexivity|]. simpl.
  unfold resetImpl. case_bool_decide as Hs; simpl; repeat split; done.
Qed.

Lemma closeImpl_spec self c p :
  let c' := (closeImpl self c p).1.1 in
  let p' := (closeImpl self c p).1.2 in
  state p' = playerClosed
  /\ (self ∉ players c')
  /\ (forall q, q <> self -> (q ∈ players c' <-> q ∈ players c))
  /\ volume p' = volume p /\ err p' = err p /\ src p' = src p
  /\ hasLoop p' = hasLoop p
  /\ (state p <> playerClosed ->
      buf p' = [] /\ (closeImpl self c p).2 = err p)
  /\ (state p = playerClosed -> p' = p /\ (closeImpl self c p).2 = None)
  /\ closeImpl self c' p' = (c', p', None).
Proof.
  pose proof (closeImpl_twice self c p) as Htwice.
  assert (self ∉ players (removePlayer c self)) as Hout.
  { simpl. rewrite elem_of_difference, elem_of_singleton. tauto. }
  assert (forall q, q <> self ->
            (q ∈ players (removePlayer c self) <-> q ∈ players c)) as Hrest.
  { intros q Hq. simpl. rewrite elem_of_difference, elem_of_singleton. tauto. }
  unfold closeImpl in *.
  case_bool_decide as Hs; simpl in *; repeat split; try done; apply Hrest; done.
Qed.




Lemma loopStore_failed self c data e p :
  isFailure e = true ->
  exists c' p',
    loopStore self c data e p = (c', p', LoopReturned)
    /\ state p' = playerClosed
    /\ Err p' = e /\ e <> None
    /\ (state p <> playerClosed -> buf p' = [])
    /\ (self ∉ players c').
Proof.
  intros Hfail. unfold loopStore. rewrite Hfail.
  destruct (closeImpl_spec self c (setErr e p))
    as (Hc & Hout & _ & _ & Herr & _ & _ & Hopen & _).
  unfold setErrorImpl.
  destruct (closeImpl self c (setErr e p)) as [[c' p'] r] eqn:Ec. simpl in *.
  eexists _, _. split; [reflexivity|].
  split; [done|]. split; [done|]. split; [by apply isFailure_Some|].
  split; [|done]. intros Hs. by destruct Hopen.
Qed.


(** X5: Once Closed, always Closed: no sequence of calls, mixing and moves of
    the fill loop makes a Closed player Paused or Playing again. *)
Theorem Closed_is_terminal os w w' :
  run maxBufferSize os w = Some w' ->
  state (w_player w) = playerClosed ->
  state (w_player w') = playerClosed /\ IsPlaying (w_player w') = false.
Proof.
  intros Hrun Hc. pose proof (run_closed_stays _ _ _ _ Hrun Hc) as Hc'.
  split; [done|]. unfold IsPlaying. rewrite Hc'. done.
Qed.

(** X6: The source is read, and its position moved, only by [loop] and by a
    [Play] on a Paused player without error whose buffer is below
    [maxBufferSize]: [Pause], [Reset], [Close], [SetVolume] and the
    mixing leave it where it is (so [Reset] does not rewind). *)
Theorem source_moves_only_by_reading o w w' :
  exec maxBufferSize o w = Some w' ->
  src (w_player w') <> src (w_player w) ->
  o = OpLoopRead
  \/ exists fuel,
       o = OpPlay fuel
       /\ state (w_player w) = playerPaused
       /\ Err (w_player w) = None
       /\ UnplayedBufferSize (w_player w) < maxBufferSize.
Proof.
  destruct w as [self c p pc]. unfold exec; simpl. intros E Hsrc.
  destruct o; simpl in E.
  - right. exists fuel. split; [done|].
    unfold playImpl in E.
    case_bool_decide as He; [injection E as <-; done|].
    case_bool_decide as Hs; [injection E as <-; done|].
    unfold UnplayedBufferSize, Err.
    split; [by destruct (state p)|]. split; [by destruct (err p)|].
    destruct (Nat.ltb_spec (length (buf p)) maxBufferSize) as [|Hge]; [done|].
    exfalso. destruct fuel; simpl in E.
    + destruct (Nat.ltb_spec (length (buf p)) maxBufferSize); [lia|].
      simpl in E. injection E as <-. simpl in *.
      destruct (hasLoop p); done.
    + destruct (Nat.ltb_spec (length (buf p)) maxBufferSize); [lia|].
      simpl in E. injection E as <-. simpl in *.
      destruct (hasLoop p); done.
  - injection E as <-. simpl in *. unfold pauseImpl in Hsrc.
    by case_bool_decide.
  - injection E as <-. simpl in *. unfold resetImpl in Hsrc.
    by case_bool_decide.
  - pose proof (closeImpl_spec self c p) as (_ & _ & _ & _ & _ & Hs & _).
    destruct (closeImpl self c p) as [[c' p'] r]. injection E as <-. done.
  - by injection E as <-.
  - unfold addBuffer in E. destruct (negb _); [by injection E as <-|].
    destruct (_ =? 0); [done|]. by injection E as <-.
  - destruct pc; try done. destruct (wait _ p) as [[|]|]; try done;
      by injection E as <-.
  - by left.
  - destruct pc as [| | |data e|]; try done. unfold loopStore in E.
    destruct (isFailure e).
    + pose proof (closeImpl_spec self c (setErr e p)) as (_ & _ & _ & _ & _ & Hs & _).
      unfold setErrorImpl in E.
      destruct (closeImpl self c (setErr e p)) as [[c' p'] r].
      injection E as <-. done.
    + injection E as <-. simpl in *.
      destruct (bool_decide _ && _); [|done].
      unfold resetImpl in Hsrc. simpl in Hsrc. by case_bool_decide.
Qed.


Lemma exec_hasLoop o w w' :
  exec maxBufferSize o w = Some w' ->
  (hasLoop (w_player w') = hasLoop (w_player w) /\ w_loop w' = w_loop w)
  \/ (exists fuel, o = OpPlay fuel /\ state (w_player w) = playerPaused
       /\ hasLoop (w_player w') = true
       /\ w_loop w' = (if hasLoop (w_player w) then w_loop w else LoopAtWait))
  \/ (isLoopMove o /\ hasLoop (w_player w') = hasLoop (w_player w)
       /\ w_loop w <> LoopNotStarted /\ w_loop w <> LoopReturned
       /\ w_loop w' <> LoopNotStarted
       /\ (w_loop w' = LoopReturned -> state (w_player w') = playerClosed)).
Proof.
  destruct w as [self c p pc]. unfold exec; simpl. intros E.
  destruct o; simpl in E.
  - destruct (playImpl _ _ _ _ _) as [[c' p']|] eqn:Ep; [|done].
    injection E as <-. simpl.
    apply playImpl_cases in Ep
      as [(_ & -> & _)|[(_ & Hs & e & p1 & Ef & Ep)|(_ & Hs & p1 & Ef & _ & ->)]].
    + left. split; [done|]. by destruct (hasLoop p).
    + left. pose proof (fillLoop_frame _ _ _ _ Ef) as (_ & _ & _ & Hl).
      pose proof (closeImpl_spec self c (setErr e p1)) as (_ & _ & _ & _ & _ & _ & Hl' & _).
      unfold setErrorImpl in Ep. rewrite <- Ep in Hl'. simpl in *.
      rewrite Hl', Hl. split; [done|]. by destruct (hasLoop p).
    + right. left. exists fuel. simpl. repeat split; try done.
      by destruct (hasLoop p).
  - injection E as <-. left. simpl. unfold pauseImpl. by case_bool_decide.
  - injection E as <-. left. simpl. unfold resetImpl. by case_bool_decide.
  - pose proof (closeImpl_spec self c p) as (_ & _ & _ & _ & _ & _ & Hl & _).
    destruct (closeImpl self c p) as [[c' p'] r]. injection E as <-. by left.
  - injection E as <-. by left.
  - unfold addBuffer in E. left. destruct (negb _); [by injection E as <-|].
    destruct (_ =? 0); [done|]. by injection E as <-.
  - destruct pc; try done. unfold wait, shouldWait in E.
    right. right. split; [left; done|].
    destruct (state p) eqn:Es; try done.
    + destruct (_ <=? _); [done|]. by injection E as <-.
    + by injection E as <-.
  - destruct pc; try done. unfold loopRead in E.
    destruct (Read (src p) loopChunk) as [[data e] s']. injection E as <-.
    right. right. split; [right; left; done|]. done.
  - destruct pc as [| | |data e|]; try done. unfold loopStore in E.
    right. right. split; [right; right; done|].
    destruct (isFailure e).
    + pose proof (closeImpl_spec self c (setErr e p)) as (Hc & _ & _ & _ & _ & _ & Hl & _).
      unfold setErrorImpl in E.
      destruct (closeImpl self c (setErr e p)) as [[c' p'] r].
      injection E as <-. done.
    + injection E as <-. simpl.
      destruct (bool_decide _ && _); [|done].
      unfold resetImpl. simpl. by case_bool_decide.
Qed.

(** X7: The goroutine of [loop] is started by the first [Play] that fills the
    buffer, and it lives as long as the player: it has returned only if
    the player is Closed, and a player that has played and is not Closed
    has its loop waiting, reading or about to store. *)
Theorem fill_loop_lives_until_Closed w :
  reachable maxBufferSize w ->
  (hasLoop (w_player w) = false <-> w_loop w = LoopNotStarted)
  /\ (w_loop w = LoopReturned -> state (w_player w) = playerClosed)
  /\ (hasLoop (w_player w) = true -> state (w_player w) <> playerClosed ->
      w_loop w = LoopAtWait \/ w_loop w = LoopAtRead
      \/ exists data e, w_loop w = LoopGot data e).
Proof.
  intros Hr.
  assert ((hasLoop (w_player w) = false <-> w_loop w = LoopNotStarted)
          /\ (w_loop w = LoopReturned -> state (w_player w) = playerClosed))
    as [Hstart Hret].
  { induction Hr as [self c s|o w w' Hr [IH1 IH2] E]; [done|].
    pose proof (exec_closed_stays _ _ _ _ E) as Hclosed.
    apply exec_hasLoop in E
      as [[Hl Hpc]|[(fuel & -> & Hs & Hl & Hpc)|(_ & Hl & Hn & Hn' & Hn'' & Hc)]].
    - rewrite Hl, Hpc. split; [done|]. intros Hpc'. auto.
    - rewrite Hl, Hpc. destruct (hasLoop (w_player w)) eqn:El.
      + split; [split; [done|]|].
        * intros Hpc'. apply IH1 in Hpc'. done.
        * intros Hpc'. apply IH2 in Hpc'. congruence.
      + split; [split; done|done].
    - rewrite Hl. split; [|done]. rewrite IH1. split; done. }
  split; [done|]. split; [done|].
  intros Hl Hs. destruct (w_loop w) as [| | |data e|]; eauto.
  - destruct Hstart as [_ Hstart]. rewrite Hstart in Hl; done.
  - exfalso. by apply Hs, Hret.
Qed.

Lemma run_cons o os w :
  run maxBufferSize (o :: os) w
  = match exec maxBufferSize o w with
    | None => None
    | Some w' => run maxBufferSize os w'
    end.
Proof. reflexivity. Qed.

Lemma exec_Close self c p pc :
  exec maxBufferSize OpClose (mkWorld self c p pc)
  = Some (mkWorld self (closeImpl self c p).1.1 (closeImpl self c p).1.2 pc).
Proof. unfold exec. simpl. by destruct (closeImpl self c p) as [[c' p'] r]. Qed.

(** X8: [Close] ends the fill loop: from wherever the goroutine stands it
    returns within three of its own moves, after at most one more [Read]
    of the source. *)
Theorem Close_stops_fill_loop w :
  w_loop w <> LoopNotStarted ->
  exists os w',
    length os <= 3 /\ Forall isLoopMove os
    /\ run maxBufferSize (OpClose :: os) w = Some w'
    /\ w_loop w' = LoopReturned
    /\ state (w_player w') = playerClosed.
Proof.
  destruct w as [self c p pc]. intros Hpc. simpl in Hpc.
  pose proof (closeImpl_spec self c p) as (Hc & _). simpl in Hc.
  assert (forall c0 (q : playerImpl Src) n, state q = playerClosed ->
            run maxBufferSize [OpLoopWait] (mkWorld n c0 q LoopAtWait)
            = Some (mkWorld n c0 q LoopReturned)) as Hwait.
  { intros c0 q n Hq. simpl. unfold wait, shouldWait. rewrite Hq. done. }
  assert (forall c0 (q : playerImpl Src) n data e, state q = playerClosed ->
            exists os w',
              length os <= 1 /\ Forall isLoopMove os
              /\ run maxBufferSize (OpLoopStore :: os) (mkWorld n c0 q (LoopGot data e))
                 = Some w'
              /\ w_loop w' = LoopReturned /\ state (w_player w') = playerClosed)
    as Hstore.
  { intros c0 q n data e Hq. destruct (isFailure e) eqn:Ef.
    - destruct (loopStore_failed n c0 data e q Ef)
        as (c' & p' & Es & Hs' & _).
      exists [], (mkWorld n c' p' LoopReturned). simpl. rewrite Es.
      repeat split; try done. lia.
    - destruct (bool_decide (e = Some io_EOF)
                && (length (buf (setBuf (buf q ++ data) q)) =? 0)) eqn:Eb.
      + eexists [OpLoopWait], _. split; [simpl; lia|].
        split; [repeat constructor; by left|].
        simpl. unfold loopStore. rewrite Ef, Eb.
        unfold wait, shouldWait, resetImpl. simpl. rewrite Hq. simpl.
        rewrite Hq. done.
      + eexists [OpLoopWait], _. split; [simpl; lia|].
        split; [repeat constructor; by left|].
        simpl. unfold loopStore. rewrite Ef, Eb.
        unfold wait, shouldWait. simpl. rewrite Hq. done. }
  set (c' := (closeImpl self c p).1.1) in *.
  set (p' := (closeImpl self c p).1.2) in *.
  destruct pc as [| | |data e|].
  - done.
  - exists [OpLoopWait], (mkWorld self c' p' LoopReturned).
    split; [simpl; lia|]. split; [repeat constructor; by left|].
    rewrite run_cons, exec_Close. fold c' p'.
    exact (conj (Hwait c' p' self Hc) (conj eq_refl Hc)).
  - destruct (Read (src p') loopChunk) as [[data e] s'] eqn:Er.
    destruct (Hstore c' (setSrc s' p') self data e Hc)
      as (os & w' & Hlen & Hall & Hrun & Hret & Hcl).
    exists (OpLoopRead :: OpLoopStore :: os), w'.
    split; [simpl; lia|].
    split; [constructor; [right; left; done|constructor; [right; right; done|done]]|].
    split; [|done].
    rewrite run_cons, exec_Close. fold c' p'.
    rewrite run_cons. unfold exec at 1. simpl. unfold loopRead. rewrite Er.
    exact Hrun.
  - destruct (Hstore c' p' self data e Hc)
      as (os & w' & Hlen & Hall & Hrun & Hret & Hcl).
    exists (OpLoopStore :: os), w'.
    split; [simpl; lia|].
    split; [constructor; [right; right; done|done]|].
    split; [|done]. rewrite run_cons, exec_Close. fold c' p'. exact Hrun.
  - exists [], (mkWorld self c' p' LoopReturned).
    split; [simpl; lia|]. split; [constructor|].
    rewrite run_cons, exec_Close. fold c' p'. done.
Qed.

(** X9: A chunk that [loop] has read is stored even if [Reset] or [Close]
    came in between: after [Reset] (or [Close]) and the store, the
    buffer holds that chunk, although the player is Paused (or Closed). *)
Theorem chunk_in_flight_survives_Reset o w data e :
  o = OpReset \/ o = OpClose ->
  w_loop w = LoopGot data e -> isFailure e = false -> data <> [] ->
  state (w_player w) <> playerClosed ->
  exists w',
    run maxBufferSize [o; OpLoopStore] w = Some w'
    /\ buf (w_player w') = data
    /\ 0 < UnplayedBufferSize (w_player w')
    /\ state (w_player w')
       = match o with OpReset => playerPaused | _ => playerClosed end
    /\ w_loop w' = LoopAtWait.
Proof.
  intros Ho Hpc Hok Hdata Hs. destruct w as [self c p pc]. simpl in *. subst pc.
  destruct data as [|b0 data]; [done|].
  destruct e as [[|n]|]; [|done|];
    destruct Ho as [-> | ->]; simpl;
    unfold resetImpl, closeImpl; rewrite bool_decide_eq_false_2 by done; simpl;
    (eexists; split; [reflexivity|]; unfold UnplayedBufferSize; simpl;
     repeat split; try done; lia).
Qed.

End ControlFacts.

(** * Further facts about the mixing *)

(** ** The converter *)

Lemma sample_two_bytes_alone b i :
  sample 2 b i = sample 2 [nth (2 * i) b x00; nth (2 * i + 1) b x00] 0.
Proof. reflexivity. Qed.

Lemma sample_one_byte_alone b i : sample 1 b i = sample 1 [nth i b x00] 0.
Proof. reflexivity. Qed.

Lemma int16_range z : (-32768 <= int16 z < 32768)%Z.
Proof. unfold int16. pose proof (Z.mod_pos_bound (z + 32768) 65536). lia. Qed.

Lemma sample16_bounds b i :
  SFeqb (sample 2 b i)
        (f32_dyadic (int16le (nth (2 * i) b x00) (nth (2 * i + 1) b x00)) 15) = true
  /\ f32leb (f32_of_Z (-1)) (sample 2 b i) = true
  /\ f32ltb (sample 2 b i) (f32_of_Z 1) = true.
Proof.
  rewrite sample_two_bytes_alone.
  pose proof (sample16_range (nth (2 * i) b x00) (nth (2 * i + 1) b x00)) as Hok.
  unfold sample16_ok in Hok. apply andb_prop in Hok as [Hok Hlt].
  apply andb_prop in Hok as [Heq Hle]. done.
Qed.

(** X10: In a sixteen-bit context sample [i] is the signed little-endian value
    of bytes [2i] and [2i+1] over [2^15], without rounding, and so at
    least -1 and below 1. *)
Theorem sample_two_bytes_is_signed_fraction b i :
  SFeqb (sample 2 b i)
        (f32_dyadic (int16le (nth (2 * i) b x00) (nth (2 * i + 1) b x00)) 15) = true
  /\ (-32768 <= int16le (nth (2 * i) b x00) (nth (2 * i + 1) b x00) < 32768)%Z
  /\ f32leb (f32_of_Z (-1)) (sample 2 b i) = true
  /\ f32ltb (sample 2 b i) (f32_of_Z 1) = true.
Proof.
  destruct (sample16_bounds b i) as (Heq & Hle & Hlt).
  split; [done|]. split; [apply int16_range|]. done.
Qed.

Lemma isNumber_between lo hi x :
  isNumber lo -> isNumber hi ->
  f32leb lo x = true -> f32ltb x hi = true -> isNumber x.
Proof.
  unfold f32leb, f32ltb, SFleb, SFltb.
  destruct x as [s|[|]| |s m e]; try done;
    destruct lo as [sl|sl| |sl ml el]; try done;
    destruct hi as [sh|sh| |sh mh eh]; try done.
Qed.

(** No sample is an infinity or a NaN. *)
Lemma sample_isNumber depth b i : isNumber (sample depth b i).
Proof.
  destruct depth as [|[|[|depth]]]; try done.
  - rewrite sample_one_byte_alone.
    destruct (sample8_wraps (nth i b x00)) as (_ & Hle & Hlt).
    by eapply (isNumber_between f32zero (f32_of_Z 2)).
  - destruct (sample16_bounds b i) as (_ & Hle & Hlt).
    by eapply (isNumber_between (f32_of_Z (-1)) (f32_of_Z 1)).
Qed.

(** ** [addBuffer] and the loop over the players *)

Section ChunkFacts.
Context {Src : Type}.
Implicit Types (p : playerImpl Src) (out : list float32) (c : context).

(** [addBuffer] in the vocabulary of the snapshot. *)
Lemma addBuffer_mixedBy c p out :
  bitDepthInBytes c <> 0 ->
  exists out' n,
    addBuffer c p out = Some (mixedPlayer c (length out) p, out', n)
    /\ length out' = length out
    /\ forall i, out' !! i = mixedBy c (length out) p i <$> out !! i.
Proof.
  intros Hd. unfold mixedPlayer, mixedBy.
  destruct (decide (state p = playerPlay)) as [Hs|Hs].
  - rewrite (addBuffer_playing c p out Hs Hd). eexists _, _.
    rewrite bool_decide_eq_true_2 by done.
    split; [reflexivity|]. split; [apply mixLoop_length|].
    intros i. rewrite mixLoop_lookup. unfold available. simpl.
    destruct (Nat.ltb_spec i (Nat.min (length (buf p) / bitDepthInBytes c) (length out)));
      case_bool_decide; try lia; try done.
    by destruct (out !! i).
  - rewrite (addBuffer_not_playing c p out Hs). eexists _, _.
    rewrite bool_decide_eq_false_2 by done.
    split; [reflexivity|]. split; [done|]. intros i. simpl.
    by destruct (out !! i).
Qed.

(** X11: [addBuffer] never indexes outside a slice: slot [i] it writes is in
    the destination, the bytes of sample [i] are in the buffer, and so is
    the cut [p.buf[n*bitDepthInBytes:]]. *)
Theorem addBuffer_stays_in_range c p out i :
  bitDepthInBytes c <> 0 -> i < available c p out ->
  i < length out
  /\ (i + 1) * bitDepthInBytes c <= length (buf p)
  /\ (bitDepthInBytes c = 1 -> i < length (buf p))
  /\ (bitDepthInBytes c = 2 -> 2 * i + 1 < length (buf p))
  /\ available c p out * bitDepthInBytes c <= length (buf p).
Proof.
  intros Hd Hi. pose proof (available_bytes c p out Hd) as Hb.
  assert (i < length out) as Hout by (unfold available in Hi; lia).
  assert ((i + 1) * bitDepthInBytes c <= available c p out * bitDepthInBytes c)
    as Hle by (apply Nat.mul_le_mono_r; lia).
  split; [done|]. split; [lia|]. repeat split; try lia.
Qed.

Lemma sample_drop depth b m j :
  sample depth (drop (m * depth) b) j = sample depth b (m + j).
Proof.
  destruct depth as [|[|[|depth]]]; try done.
  - unfold sample, byteAt. rewrite !nth_lookup, lookup_drop.
    replace (m * 1 + j) with (m + j) by lia. done.
  - unfold sample, byteAt. rewrite !nth_lookup, !lookup_drop.
    replace (m * 2 + 2 * j) with (2 * (m + j)) by lia.
    replace (m * 2 + (2 * j + 1)) with (2 * (m + j) + 1) by lia. done.
Qed.

Lemma split_count L d k1 k2 :
  d <> 0 ->
  Nat.min ((L - Nat.min (L / d) k1 * d) / d) k2 + Nat.min (L / d) k1
  = Nat.min (L / d) (k1 + k2)
  /\ (Nat.min (L / d) k1 < k1 ->
      Nat.min ((L - Nat.min (L / d) k1 * d) / d) k2 = 0).
Proof.
  intros Hd. set (n1 := Nat.min (L / d) k1).
  assert ((L - n1 * d) / d = L / d - n1) as ->.
  { pose proof (Nat.div_mod L d Hd) as E.
    pose proof (Nat.mod_upper_bound L d Hd) as Hr.
    assert (n1 <= L / d) as Hle by (unfold n1; lia).
    replace (L - n1 * d) with ((L / d - n1) * d + L mod d) by nia.
    rewrite Nat.div_add_l by done. rewrite (Nat.div_small _ _ Hr). lia. }
  unfold n1. lia.
Qed.

(** X12: Mixing a request in two parts, one right after the other, is mixing
    it in one: the same samples are added to the same slots, the same
    bytes leave the buffer, and the counts add up. *)
Theorem addBuffer_in_two_parts c p out1 out2 :
  bitDepthInBytes c <> 0 ->
  exists p1 out1' n1 p2 out2' n2,
    addBuffer c p out1 = Some (p1, out1', n1)
    /\ addBuffer c p1 out2 = Some (p2, out2', n2)
    /\ addBuffer c p (out1 ++ out2) = Some (p2, out1' ++ out2', n1 + n2).
Proof.
  intros Hd. destruct (decide (state p = playerPlay)) as [Hs|Hs].
  2:{ exists p, out1, 0, p, out2, 0.
      rewrite !(addBuffer_not_playing c p _ Hs). done. }
  rewrite (addBuffer_playing c p out1 Hs Hd).
  rewrite (addBuffer_playing c p (out1 ++ out2) Hs Hd).
  eexists _, _, _, _, _, _. split; [reflexivity|].
  rewrite (addBuffer_playing c (consume c (available c p out1) p) out2 Hs Hd).
  split; [reflexivity|].
  set (d := bitDepthInBytes c) in *.
  set (n1 := available c p out1).
  set (n2 := available c (consume c n1 p) out2).
  assert (n1 * d <= length (buf p)) as Hn1.
  { pose proof (available_bytes c p out1 Hd) as Hb. fold n1 d in Hb. lia. }
  destruct (split_count (length (buf p)) d (length out1) (length out2) Hd)
    as [Hsum Hzero].
  assert (n2 = Nat.min ((length (buf p) - n1 * d) / d) (length out2)) as En2.
  { unfold n2, available, consume. simpl. by rewrite length_drop. }
  assert (available c p (out1 ++ out2) = n1 + n2) as Hn.
  { rewrite En2. unfold available. rewrite length_app. fold d.
    unfold n1, available. fold d. lia. }
  assert (n1 < length out1 -> n2 = 0) as Hshort.
  { intros Hlt. rewrite En2. apply Hzero. exact Hlt. }
  assert (n1 <= length out1) as Hn1' by (unfold n1, available; lia).
  assert (consume c n2 (consume c n1 p) = consume c (n1 + n2) p) as Hp.
  { unfold consume, setBuf. simpl. rewrite drop_drop. fold d.
    replace (n1 * d + n2 * d) with ((n1 + n2) * d) by lia. reflexivity. }
  assert (mixLoop d (buf p) (f32_of_f64 (volume p)) 0 (n1 + n2) (out1 ++ out2)
          = mixLoop d (buf p) (f32_of_f64 (volume p)) 0 n1 out1
            ++ mixLoop d (buf (consume c n1 p)) (f32_of_f64 (volume p)) 0 n2 out2)
    as Ho.
  { apply list_eq. intros i. rewrite mixLoop_lookup.
    destruct (decide (i < length out1)) as [Hi|Hi].
    - rewrite (lookup_app_l out1 out2) by done.
      rewrite lookup_app_l by (by rewrite mixLoop_length).
      rewrite mixLoop_lookup.
      repeat case_bool_decide; try done; lia.
    - rewrite (lookup_app_r out1 out2) by lia.
      rewrite lookup_app_r by (rewrite mixLoop_length; lia).
      rewrite mixLoop_length, mixLoop_lookup. simpl.
      repeat case_bool_decide; try done; try lia.
      destruct (out2 !! (i - length out1)) as [x|]; [|done]. simpl.
      unfold mixed. do 3 f_equal. unfold d.
      rewrite sample_drop. f_equal. lia. }
  rewrite Hn. fold n1 n2. rewrite <- Hp, Ho. reflexivity.
Qed.

Lemma mixPlayers_fold c (ps : list (playerImpl Src)) out :
  bitDepthInBytes c <> 0 ->
  exists out',
    mixPlayers c ps out = Some (mixedPlayer c (length out) <$> ps, out')
    /\ length out' = length out
    /\ forall i,
         out' !! i
         = (fun x => foldl (fun acc p => mixedBy c (length out) p i acc) x ps)
             <$> out !! i.
Proof.
  intros Hd. revert out. induction ps as [|p ps IH]; intros out; simpl.
  - exists out. split; [done|]. split; [done|]. intros i. by destruct (out !! i).
  - destruct (addBuffer_mixedBy c p out Hd) as (out1 & n & -> & Hlen & Hout1).
    destruct (IH out1) as (out2 & -> & Hlen2 & Hout2).
    rewrite Hlen in *. exists out2. split; [done|]. split; [done|].
    intros i. rewrite Hout2, Hout1. by destruct (out !! i).
Qed.

(** X13: The loop over the snapshot runs to its end in a context with a
    positive sample size: every Playing player gives what it has, up to
    the size of the destination, the others are left alone, and slot [i]
    ends as its old value with the contributions of the players added
    one after the other, in the order of the snapshot. *)
Theorem mixPlayers_adds_every_player c (ps : list (playerImpl Src)) out :
  bitDepthInBytes c <> 0 ->
  exists out',
    mixPlayers c ps out = Some (mixedPlayer c (length out) <$> ps, out')
    /\ length out' = length out
    /\ forall i,
         out' !! i
         = (fun x => foldl (fun acc p => mixedBy c (length out) p i acc) x ps)
             <$> out !! i.
Proof. apply mixPlayers_fold. Qed.

End ChunkFacts.

(** ** One pass of the write callback *)

Lemma zeroLoop_length i k buf32 : length (zeroLoop i k buf32) = length buf32.
Proof.
  revert i buf32. induction k as [|k IH]; intros i buf32; simpl; [done|].
  rewrite IH. apply length_insert.
Qed.

Lemma zeroLoop_lookup i k buf32 j :
  zeroLoop i k buf32 !! j =
    if bool_decide (i <= j < i + k) then (fun _ => f32zero) <$> buf32 !! j
    else buf32 !! j.
Proof.
  revert i buf32. induction k as [|k IH]; intros i buf32; simpl.
  - case_bool_decide; [lia|done].
  - rewrite IH. destruct (decide (i = j)) as [->|Hne].
    + destruct (decide (j < length buf32)) as [Hj|Hj].
      * rewrite list_lookup_insert_eq by done.
        repeat case_bool_decide; try lia.
        destruct (buf32 !! j) eqn:E; [done|].
        apply lookup_ge_None in E. lia.
      * rewrite list_insert_ge by lia.
        rewrite lookup_ge_None_2 by lia.
        repeat case_bool_decide; done.
    + rewrite list_lookup_insert_ne by done.
      repeat case_bool_decide; try done; lia.
Qed.

(** Whatever [buf32] held, its front is silent before the players add
    to it, and what lies behind the front is not touched. *)
Lemma prepareBuf32_front buf32 k :
  take k (prepareBuf32 buf32 k) = replicate k f32zero
  /\ drop k (prepareBuf32 buf32 k) = drop k buf32.
Proof.
  unfold prepareBuf32. destruct (Nat.ltb_spec (length buf32) k) as [Hlt|Hge].
  - rewrite take_ge by (by rewrite length_replicate).
    rewrite !drop_ge; [done|lia|by rewrite length_replicate].
  - split; apply list_eq; intros j.
    + destruct (decide (j < k)) as [Hj|Hj].
      * rewrite lookup_take_lt by done. rewrite zeroLoop_lookup.
        rewrite lookup_replicate_2 by done.
        case_bool_decide; [|lia].
        destruct (buf32 !! j) eqn:E; [done|].
        apply lookup_ge_None in E. lia.
      * rewrite lookup_take_ge by lia.
        symmetry. apply lookup_ge_None. rewrite length_replicate. lia.
    + rewrite !lookup_drop, zeroLoop_lookup. case_bool_decide; [lia|done].
Qed.

Section CallbackFacts.
Context {Src : Type}.
Implicit Types (p : playerImpl Src) (ps : list (playerImpl Src)) (c : context).

Lemma mixPlayers_not_playing c ps out :
  Forall (fun p => state p <> playerPlay) ps -> mixPlayers c ps out = Some (ps, out).
Proof.
  induction 1 as [|p ps Hp _ IH]; simpl; [done|].
  rewrite (addBuffer_not_playing c p out Hp). by rewrite IH.
Qed.

(** X14: Every pass starts from silence: the samples handed to the stream are
    what the players of the snapshot add, one after the other, to zeros,
    whatever an earlier pass left in [buf32]; behind the samples of this
    pass [buf32] is as it was. *)
Theorem writeChunk_starts_from_silence c ps buf32 bytesToFill :
  bitDepthInBytes c <> 0 ->
  exists buf32' written,
    writeChunk c ps buf32 bytesToFill
    = Some (mixedPlayer c (bytesToFill / 4) <$> ps, buf32', written)
    /\ mixPlayers c ps (replicate (bytesToFill / 4) f32zero)
       = Some (mixedPlayer c (bytesToFill / 4) <$> ps, written)
    /\ length written = bytesToFill / 4
    /\ buf32' = written ++ drop (bytesToFill / 4) buf32
    /\ forall i, i < bytesToFill / 4 ->
         written !! i
         = Some (foldl (fun acc p => mixedBy c (bytesToFill / 4) p i acc) f32zero ps).
Proof.
  intros Hd. unfold writeChunk.
  destruct (prepareBuf32_front buf32 (bytesToFill / 4)) as [-> ->].
  destruct (mixPlayers_fold c ps (replicate (bytesToFill / 4) f32zero) Hd)
    as (out & E & Hlen & Hout).
  rewrite length_replicate in *. rewrite E.
  exists (out ++ drop (bytesToFill / 4) buf32), out.
  repeat split; try done.
  intros i Hi. rewrite Hout, lookup_replicate_2 by done. done.
Qed.

(** X15: With nobody Playing in the snapshot the pass hands silence to the
    stream and changes no player, in any context. *)
Theorem writeChunk_silent_when_nobody_plays c ps buf32 bytesToFill :
  Forall (fun p => state p <> playerPlay) ps ->
  exists buf32',
    writeChunk c ps buf32 bytesToFill
    = Some (ps, buf32', replicate (bytesToFill / 4) f32zero).
Proof.
  intros Hps. unfold writeChunk.
  destruct (prepareBuf32_front buf32 (bytesToFill / 4)) as [-> ->].
  rewrite (mixPlayers_not_playing c ps _ Hps). eauto.
Qed.

(** X17: A Playing player whose volume is zero adds nothing to a silent
    destination, and its samples leave the buffer all the same. *)
Theorem muted_player_still_consumes c p k s :
  state p = playerPlay -> bitDepthInBytes c <> 0 -> volume p = S754_zero s ->
  addBuffer c p (replicate k f32zero)
  = Some (consume c (Nat.min (length (buf p) / bitDepthInBytes c) k) p,
          replicate k f32zero,
          Nat.min (length (buf p) / bitDepthInBytes c) k).
Proof.
  intros Hs Hd Hv. rewrite (addBuffer_playing c p _ Hs Hd).
  unfold available. rewrite length_replicate. do 2 f_equal. f_equal.
  apply list_eq. intros i. rewrite mixLoop_lookup.
  case_bool_decide as Hi; [|done].
  destruct (replicate k f32zero !! i) as [x|] eqn:E; [|done].
  apply lookup_replicate in E as [-> _]. simpl. f_equal.
  unfold mixed. rewrite Hv. simpl.
  pose proof (sample_isNumber (bitDepthInBytes c) (buf p) i) as Hn.
  destruct (sample (bitDepthInBytes c) (buf p) i) as [s'| | |s' m e]; try done.
  - by destruct s', s.
  - by destruct s', s.
Qed.

End CallbackFacts.

(** * Further facts about the bytes on their way *)

Section StreamFacts.
Context {Src : Type} {HR : Reader Src} {HF : FullReader Src}.
Variable maxBufferSize : nat.
Implicit Types (p : playerImpl Src) (w : @world Src) (c : context).

(** Over a source that never fails the fill of [playImpl] does not fail,
    and it moves bytes from the front of the source to the back of the
    buffer. *)
Lemma fillLoop_moves_bytes fuel p r :
  fillLoop maxBufferSize fuel p = Some r ->
  exists p', r = Filled p'
    /\ buf p' ++ remaining (src p') = buf p ++ remaining (src p).
Proof.
  revert p. induction fuel as [|fuel IH]; intros p; simpl.
  - destruct (length (buf p) <? maxBufferSize); [done|].
    intros [= <-]. eauto.
  - destruct (length (buf p) <? maxBufferSize); [|intros [= <-]; eauto].
    pose proof (full_data (src p) maxBufferSize) as Hd.
    pose proof (full_rest (src p) maxBufferSize) as Hrest.
    pose proof (full_ok (src p) maxBufferSize) as Hok.
    destruct (Read (src p) maxBufferSize) as [[data e] s']. simpl in *.
    rewrite Hok.
    assert ((buf p ++ data) ++ remaining s' = buf p ++ remaining (src p)) as Hmove
      by (by rewrite <- app_assoc, Hd, Hrest, take_drop).
    case_bool_decide; [intros [= <-]; eauto|].
    intros E. apply IH in E as (p' & -> & Hp'). simpl in Hp'.
    exists p'. split; [done|]. by rewrite Hp'.
Qed.

(** Two [Read]s are enough for the fill, which appends the next
    [maxBufferSize] bytes of the source, or all that is left of it. *)
Lemma fillLoop_two_reads fuel p :
  length (buf p) < maxBufferSize -> 2 <= fuel ->
  exists p', fillLoop maxBufferSize fuel p = Some (Filled p')
    /\ buf p' = buf p ++ take maxBufferSize (remaining (src p))
    /\ remaining (src p') = drop maxBufferSize (remaining (src p)).
Proof.
  intros Hlt Hfuel. destruct fuel as [|[|fuel]]; [lia|lia|]. simpl.
  destruct (Nat.ltb_spec (length (buf p)) maxBufferSize) as [_|]; [|lia].
  pose proof (full_data (src p) maxBufferSize) as Hd.
  pose proof (full_rest (src p) maxBufferSize) as Hrest.
  pose proof (full_ok (src p) maxBufferSize) as Hok.
  destruct (Read (src p) maxBufferSize) as [[data e] s']. simpl in *.
  rewrite Hok. subst data.
  case_bool_decide; [eexists; by split|].
  rewrite length_app.
  destruct (Nat.ltb_spec (length (buf p) + length (take maxBufferSize (remaining (src p))))
              maxBufferSize) as [Hshort|Hfull]; [|eexists; by split].
  assert (remaining s' = []) as Hnil.
  { rewrite Hrest. apply drop_ge. rewrite length_take in Hshort. lia. }
  pose proof (full_data s' maxBufferSize) as Hd'.
  pose proof (full_rest s' maxBufferSize) as Hrest'.
  pose proof (full_ok s' maxBufferSize) as Hok'.
  pose proof (full_eof s' maxBufferSize Hnil) as Heof.
  destruct (Read s' maxBufferSize) as [[data' e'] s'']. simpl in *.
  rewrite Hok', Heof. rewrite bool_decide_eq_true_2 by done.
  eexists. split; [done|]. simpl.
  rewrite Hd', Hnil, take_nil, app_nil_r. split; [done|].
  by rewrite Hrest', Hnil, drop_nil, <- Hrest.
Qed.

(** Over such a source the fill loop never holds a failed [Read]. *)
Lemma reachable_chunk_ok w :
  reachable maxBufferSize w ->
  forall data e, w_loop w = LoopGot data e -> isFailure e = false.
Proof using HF.
  induction 1 as [self c s|o w w' Hr IH E]; [done|].
  intros data e Hpc. destruct w as [self c p pc]. simpl in *.
  unfold exec in E; simpl in E. destruct o; simpl in E.
  - destruct (playImpl _ _ _ _ _) as [[c' p']|]; [|done].
    injection E as <-. simpl in Hpc.
    destruct (negb (hasLoop p) && hasLoop p'); [done|]. eauto.
  - injection E as <-. eauto.
  - injection E as <-. eauto.
  - destruct (closeImpl self c p) as [[c' p'] r]. injection E as <-. eauto.
  - injection E as <-. eauto.
  - destruct (addBuffer c p out) as [[[p' out'] n]|]; [|done].
    injection E as <-. eauto.
  - destruct pc; try done. destruct (wait _ p) as [[|]|]; try done;
      by injection E as <-.
  - destruct pc; try done. unfold loopRead in E.
    pose proof (full_ok (src p) loopChunk) as Hok.
    destruct (Read (src p) loopChunk) as [[data0 e0] s']. injection E as <-.
    simpl in *. by injection Hpc as <- <-.
  - destruct pc as [| | |data0 e0|]; try done. unfold loopStore in E.
    destruct (isFailure e0).
    + destruct (setErrorImpl self c e0 p). by injection E as <-.
    + by injection E as <-.
Qed.

(** X19: Bytes reach the mixer in the order of the source, none lost and none
    twice: every step other than [Reset] and [Close] leaves the bytes on
    their way (buffer, chunk held by the loop, rest of the source) as
    they were, but for what the mixing takes from the front; this on
    condition that [Play] does not run while the loop holds a chunk. *)
Theorem bytes_keep_their_order o w w' :
  reachable maxBufferSize w ->
  exec maxBufferSize o w = Some w' ->
  o <> OpReset -> o <> OpClose ->
  (forall fuel, o = OpPlay fuel -> pending (w_loop w) = []) ->
  exists played,
    stream w = played ++ stream w'
    /\ ((forall out, o <> OpMix out) -> played = []).
Proof.
  intros Hr E Hreset Hclose Hplay.
  pose proof (reachable_chunk_ok w Hr) as Hok.
  destruct w as [self c p pc]. unfold stream. simpl in *.
  unfold exec in E; simpl in E. destruct o; simpl in E; try done.
  - exists []. split; [|done]. simpl.
    specialize (Hplay fuel eq_refl).
    destruct (playImpl _ _ _ _ _) as [[c' p']|] eqn:Ep; [|done].
    injection E as <-. simpl.
    apply playImpl_cases in Ep
      as [(_ & -> & _)|[(_ & _ & e & p1 & Ef & _)|(_ & _ & p1 & Ef & _ & ->)]].
    + by destruct (hasLoop p).
    + by apply fillLoop_moves_bytes in Ef as (p2 & [=] & _).
    + apply fillLoop_moves_bytes in Ef as (p2 & [= <-] & Hmove). simpl.
      assert (pending (if negb (hasLoop p) && true then LoopAtWait else pc) = [])
        as -> by (by destruct (negb (hasLoop p) && true)).
      rewrite Hplay. simpl. done.
  - exists []. injection E as <-. split; [|done]. simpl.
    unfold pauseImpl. by case_bool_decide.
  - exists []. by injection E as <-.
  - destruct (decide (state p = playerPlay)) as [Hs|Hs].
    + destruct (decide (bitDepthInBytes c = 0)) as [Hd|Hd].
      { unfold addBuffer in E. rewrite Hs, Hd in E. done. }
      rewrite (addBuffer_playing c p out Hs Hd) in E. injection E as <-.
      exists (take (available c p out * bitDepthInBytes c) (buf p)).
      split; [|intros Hno; by destruct (Hno out)]. simpl.
      by rewrite !app_assoc, take_drop.
    + rewrite (addBuffer_not_playing c p out Hs) in E. injection E as <-.
      exists []. split; [done|]. intros Hno. by destruct (Hno out).
  - exists []. split; [|done]. destruct pc; try done.
    destruct (wait _ p) as [[|]|]; try done; by injection E as <-.
  - exists []. split; [|done]. destruct pc; try done. unfold loopRead in E.
    pose proof (full_data (src p) loopChunk) as Hd.
    pose proof (full_rest (src p) loopChunk) as Hrest.
    destruct (Read (src p) loopChunk) as [[data e] s']. injection E as <-.
    simpl in *. by rewrite Hd, Hrest, take_drop.
  - exists []. split; [|done]. destruct pc as [| | |data e|]; try done.
    unfold loopStore in E. rewrite (Hok data e eq_refl) in E.
    injection E as <-. simpl.
    destruct (bool_decide _ && _) eqn:Eb.
    + apply andb_prop in Eb as [_ Hz]. apply Nat.eqb_eq in Hz. simpl in Hz.
      apply nil_length_inv in Hz. apply app_eq_nil in Hz as [-> ->].
      unfold resetImpl. simpl. by case_bool_decide.
    + simpl. by rewrite <- app_assoc.
Qed.

(** X20: A [Play] that runs while the loop holds a chunk overtakes it: what
    [Play] reads from the source goes into the buffer first and the
    chunk, read earlier, is stored behind it. *)
Theorem Play_overtakes_chunk_in_flight w data :
  state (w_player w) = playerPaused -> Err (w_player w) = None ->
  hasLoop (w_player w) = true -> w_loop w = LoopGot data None ->
  UnplayedBufferSize (w_player w) < maxBufferSize ->
  exists w',
    run maxBufferSize [OpPlay 2; OpLoopStore] w = Some w'
    /\ stream w
       = buf (w_player w) ++ data ++ remaining (src (w_player w))
    /\ buf (w_player w')
       = buf (w_player w) ++ take maxBufferSize (remaining (src (w_player w))) ++ data
    /\ remaining (src (w_player w'))
       = drop maxBufferSize (remaining (src (w_player w)))
    /\ state (w_player w') = playerPlay.
Proof.
  destruct w as [self c p pc]. unfold stream, Err, UnplayedBufferSize.
  cbn [w_player w_loop pending]. intros Hs He Hl -> Hlt.
  destruct (fillLoop_two_reads 2 p Hlt (le_n 2)) as (p1 & Ef & Hb & Hrest).
  pose proof (fillLoop_frame _ _ _ _ Ef) as (_ & _ & _ & Hl1). simpl in Hl1.
  assert (playImpl maxBufferSize 2 self c p
          = Some (addPlayer c self, setState playerPlay p1)) as Ep.
  { unfold playImpl. rewrite Hs, He, Ef. simpl. by rewrite Hl1, Hl. }
  rewrite run_cons. unfold exec at 1. cbn [w_self w_ctx w_player w_loop].
  rewrite Ep. cbn [hasLoop setState]. rewrite Hl. cbn [negb andb].
  rewrite run_cons. unfold exec at 1. cbn [w_self w_ctx w_player w_loop].
  unfold loopStore. cbn [isFailure]. cbn [buf setBuf setState].
  rewrite bool_decide_eq_false_2 by done. cbn [andb].
  eexists. split; [reflexivity|]. cbn [w_player buf src setBuf state].
  split; [done|]. rewrite Hb, <- app_assoc. done.
Qed.

End StreamFacts.

(** * Further facts: volume and resuming *)

Section VolumeFacts.
Context {Src : Type}.
Implicit Types (p : playerImpl Src) (c : context).


End VolumeFacts.

Section ResumeFacts.
Context {Src : Type} {HR : Reader Src} {HF : FullReader Src}.
Variable maxBufferSize : nat.
Implicit Types (p : playerImpl Src) (w : @world Src) (c : context).

(** X21: [Reset] does not rewind: [Reset] followed by [Play] leaves in the
    buffer the bytes that come next in the source, not its first ones,
    and the player Playing. *)
Theorem Reset_then_Play_goes_on_in_the_source w :
  state (w_player w) <> playerClosed -> Err (w_player w) = None ->
  exists w',
    run maxBufferSize [OpReset; OpPlay 2] w = Some w'
    /\ buf (w_player w') = take maxBufferSize (remaining (src (w_player w)))
    /\ remaining (src (w_player w')) = drop maxBufferSize (remaining (src (w_player w)))
    /\ state (w_player w') = playerPlay.
Proof.
  destruct w as [self c p pc]. unfold Err. cbn [w_player]. intros Hs He.
  rewrite run_cons. unfold exec at 1. cbn [w_self w_ctx w_player w_loop].
  unfold resetImpl. rewrite bool_decide_eq_false_2 by done.
  set (q := setBuf [] (setState playerPaused p)).
  assert (exists p1, fillLoop maxBufferSize 2 q = Some (Filled p1)
            /\ buf p1 = take maxBufferSize (remaining (src p))
            /\ remaining (src p1) = drop maxBufferSize (remaining (src p)))
    as (p1 & Ef & Hb & Hrest).
  { destruct (decide (0 < maxBufferSize)) as [Hpos|Hz].
    - destruct (fillLoop_two_reads maxBufferSize 2 q Hpos (le_n 2))
        as (p1 & Ef & Hb & Hrest). eauto.
    - assert (maxBufferSize = 0) as -> by lia. exists q. simpl.
      by rewrite take_0, drop_0. }
  rewrite run_cons. unfold exec at 1. cbn [w_self w_ctx w_player w_loop].
  unfold playImpl. cbn [err state q setBuf setState]. rewrite He.
  rewrite bool_decide_eq_false_2 by (intros Hn; by apply Hn).
  rewrite bool_decide_eq_false_2 by (intros Hn; by apply Hn).
  fold q. rewrite Ef. cbn [run].
  eexists. split; [reflexivity|]. cbn [w_player].
  destruct (hasLoop (setState playerPlay p1)); simpl; done.
Qed.

End ResumeFacts.

(** * The further facts at the examples *)

Lemma reachable_midRead : reachable max8 midRead.
Proof. apply reachable_after, reachable_init. Qed.

Lemma reachable_overtaken : reachable max8 overtaken.
Proof. apply reachable_after, reachable_init. Qed.



(** The closed player cannot be played, reset or paused back. *)
Lemma Closed_is_terminal_witness :
  state (w_player broken) = playerClosed
  /\ exists w',
       run max8 [OpPlay 2; OpReset; OpPause; OpPlay 2] broken = Some w'
       /\ state (w_player w') = playerClosed
       /\ IsPlaying (w_player w') = false.
Proof.
  split; [reflexivity|].
  assert (run max8 [OpPlay 2; OpReset; OpPause; OpPlay 2] broken = Some broken)
    as Hrun by (vm_compute; reflexivity).
  exists broken. split; [exact Hrun|].
  exact (Closed_is_terminal max8 _ broken broken Hrun eq_refl).
Defined.

(** The first [Play] of [world16] moves the source. *)
Lemma source_moves_only_by_reading_witness :
  exists w',
    exec max8 (OpPlay 2) world16 = Some w'
    /\ src (w_player w') <> src (w_player world16)
    /\ (OpPlay 2 = OpLoopRead
        \/ exists fuel,
             OpPlay 2 = OpPlay fuel
             /\ state (w_player world16) = playerPaused
             /\ Err (w_player world16) = None
             /\ UnplayedBufferSize (w_player world16) < max8).
Proof.
  destruct (exec max8 (OpPlay 2) world16) as [w'|] eqn:E;
    [|vm_compute in E; discriminate E].
  assert (src (w_player w') <> src (w_player world16)) as Hsrc.
  { vm_compute in E. injection E as <-. vm_compute. discriminate. }
  exists w'. split; [reflexivity|]. split; [exact Hsrc|].
  exact (source_moves_only_by_reading max8 (OpPlay 2) world16 w' E Hsrc).
Defined.

(** The loop of a player that played and was paused is still there. *)
Lemma fill_loop_lives_until_Closed_witness :
  reachable max8 resumed
  /\ hasLoop (w_player resumed) = true
  /\ state (w_player resumed) <> playerClosed
  /\ (w_loop resumed = LoopAtWait \/ w_loop resumed = LoopAtRead
      \/ exists data e, w_loop resumed = LoopGot data e).
Proof.
  assert (state (w_player resumed) <> playerClosed) as Hs
    by (vm_compute; discriminate).
  split; [exact reachable_resumed|]. split; [reflexivity|]. split; [exact Hs|].
  destruct (fill_loop_lives_until_Closed max8 resumed reachable_resumed)
    as (_ & _ & Hlive).
  exact (Hlive eq_refl Hs).
Defined.

(** [Close] while the loop holds a chunk. *)
Lemma Close_stops_fill_loop_witness :
  w_loop midRead <> LoopNotStarted
  /\ exists os w',
       length os <= 3 /\ Forall isLoopMove os
       /\ run max8 (OpClose :: os) midRead = Some w'
       /\ w_loop w' = LoopReturned
       /\ state (w_player w') = playerClosed.
Proof.
  assert (w_loop midRead <> LoopNotStarted) as Hpc by (vm_compute; discriminate).
  split; [exact Hpc|]. exact (Close_stops_fill_loop max8 midRead Hpc).
Defined.

(** [Reset] while the loop holds eight bytes. *)
Lemma chunk_in_flight_survives_Reset_witness :
  w_loop midRead = LoopGot (drop 8 pcm16) None
  /\ isFailure None = false /\ drop 8 pcm16 <> []
  /\ state (w_player midRead) <> playerClosed
  /\ exists w',
       run max8 [OpReset; OpLoopStore] midRead = Some w'
       /\ buf (w_player w') = drop 8 pcm16
       /\ state (w_player w') = playerPaused.
Proof.
  assert (drop 8 pcm16 <> []) as Hd by (vm_compute; discriminate).
  assert (state (w_player midRead) <> playerClosed) as Hs
    by (vm_compute; discriminate).
  split; [reflexivity|]. split; [reflexivity|]. split; [exact Hd|].
  split; [exact Hs|].
  destruct (chunk_in_flight_survives_Reset max8 OpReset midRead (drop 8 pcm16) None
              (or_introl eq_refl) eq_refl eq_refl Hd Hs)
    as (w' & E & Hb & _ & Hst & _).
  exists w'. split; [exact E|]. split; [exact Hb|exact Hst].
Defined.

(** Slot 1 of three, with five bytes buffered. *)
Lemma addBuffer_stays_in_range_witness :
  bitDepthInBytes ctx16 <> 0
  /\ 1 < available ctx16 playing16 (silence 3)
  /\ 1 < length (silence 3)
  /\ (1 + 1) * bitDepthInBytes ctx16 <= length (buf playing16).
Proof.
  assert (bitDepthInBytes ctx16 <> 0) as Hd by (simpl; lia).
  assert (1 < available ctx16 playing16 (silence 3)) as Hi by (vm_compute; lia).
  split; [exact Hd|]. split; [exact Hi|].
  destruct (addBuffer_stays_in_range ctx16 playing16 (silence 3) 1 Hd Hi)
    as (Hout & Hin & _).
  split; [exact Hout|exact Hin].
Defined.

(** Three slots as one and two. *)
Lemma addBuffer_in_two_parts_witness :
  bitDepthInBytes ctx16 <> 0
  /\ exists p1 out1' n1 p2 out2' n2,
       addBuffer ctx16 playing16 (silence 1) = Some (p1, out1', n1)
       /\ addBuffer ctx16 p1 (silence 2) = Some (p2, out2', n2)
       /\ addBuffer ctx16 playing16 (silence 1 ++ silence 2)
          = Some (p2, out1' ++ out2', n1 + n2).
Proof.
  assert (bitDepthInBytes ctx16 <> 0) as Hd by (simpl; lia).
  split; [exact Hd|].
  exact (addBuffer_in_two_parts ctx16 playing16 (silence 1) (silence 2) Hd).
Defined.

(** Two playing players and a paused one. *)
Lemma mixPlayers_adds_every_player_witness :
  bitDepthInBytes ctx16 <> 0
  /\ exists out',
       mixPlayers ctx16 [playing16; paused16; playing16'] (silence 3)
       = Some (mixedPlayer ctx16 3 <$> [playing16; paused16; playing16'], out')
       /\ length out' = 3.
Proof.
  assert (bitDepthInBytes ctx16 <> 0) as Hd by (simpl; lia).
  split; [exact Hd|].
  destruct (mixPlayers_adds_every_player ctx16 [playing16; paused16; playing16']
              (silence 3) Hd) as (out' & E & Hlen & _).
  exists out'. split; [exact E|exact Hlen].
Defined.

(** A pass of twelve bytes over a stale [buf32]. *)
Lemma writeChunk_starts_from_silence_witness :
  bitDepthInBytes ctx16 <> 0
  /\ exists buf32' written,
       writeChunk ctx16 [playing16; playing16'] [f32_of_Z 1; f32_of_Z 1; f32_of_Z 1; f32_of_Z 1] 12
       = Some (mixedPlayer ctx16 (12 / 4) <$> [playing16; playing16'], buf32', written)
       /\ written = [f32_dyadic 5 3; f32_dyadic (-3) 3; f32zero].
Proof.
  assert (bitDepthInBytes ctx16 <> 0) as Hd by (simpl; lia).
  split; [exact Hd|].
  destruct (writeChunk_starts_from_silence ctx16 [playing16; playing16']
              [f32_of_Z 1; f32_of_Z 1; f32_of_Z 1; f32_of_Z 1] 12 Hd)
    as (b & wr & E & _).
  exists b, wr. split; [exact E|].
  vm_compute in E. injection E as _ <-. reflexivity.
Defined.

(** A snapshot with a paused player only. *)
Lemma writeChunk_silent_when_nobody_plays_witness :
  Forall (fun p : playerImpl sliceReader => state p <> playerPlay) [paused16]
  /\ exists buf32',
       writeChunk ctx16 [paused16] [] 8 = Some ([paused16], buf32', replicate (8 / 4) f32zero).
Proof.
  assert (Forall (fun p : playerImpl sliceReader => state p <> playerPlay) [paused16])
    as Hps by (repeat constructor; vm_compute; discriminate).
  split; [exact Hps|].
  exact (writeChunk_silent_when_nobody_plays ctx16 [paused16] [] 8 Hps).
Defined.

(** The muted player over three silent slots. *)
Lemma muted_player_still_consumes_witness :
  state muted16 = playerPlay /\ bitDepthInBytes ctx16 <> 0
  /\ volume muted16 = S754_zero false
  /\ exists p',
       addBuffer ctx16 muted16 (replicate 3 f32zero) = Some (p', replicate 3 f32zero, 2)
       /\ buf p' = [].
Proof.
  assert (bitDepthInBytes ctx16 <> 0) as Hd by (simpl; lia).
  split; [reflexivity|]. split; [exact Hd|]. split; [reflexivity|].
  eexists. split;
    [exact (muted_player_still_consumes ctx16 muted16 3 false eq_refl Hd eq_refl)|].
  reflexivity.
Defined.


(** The read of the loop in [world16]. *)
Lemma bytes_keep_their_order_witness :
  exists w',
    exec max8 OpLoopStore midRead = Some w'
    /\ stream midRead = stream w'
    /\ stream w' = drop 4 pcm16.
Proof.
  assert (OpLoopStore <> @OpReset) as H1 by discriminate.
  assert (OpLoopStore <> @OpClose) as H2 by discriminate.
  assert (forall fuel, OpLoopStore = OpPlay fuel -> pending (w_loop midRead) = [])
    as H3 by (intros fuel Ho; discriminate Ho).
  destruct (exec max8 OpLoopStore midRead) as [w'|] eqn:E;
    [|vm_compute in E; discriminate E].
  exists w'. split; [reflexivity|].
  destruct (bytes_keep_their_order max8 OpLoopStore midRead w'
              reachable_midRead E H1 H2 H3) as (played & Hstream & Hnone).
  assert (played = []) as -> by (apply Hnone; intros out Ho; discriminate Ho).
  split; [exact Hstream|].
  vm_compute in E. injection E as <-. reflexivity.
Defined.

(** [Play] on the paused player whose loop holds a chunk of 4096 bytes,
    with eight more bytes left in the source: they end in front of the
    chunk. *)
Lemma Play_overtakes_chunk_in_flight_witness :
  reachable max8 overtaken
  /\ state (w_player overtaken) = playerPaused
  /\ Err (w_player overtaken) = None
  /\ hasLoop (w_player overtaken) = true
  /\ w_loop overtaken = LoopGot (replicate loopChunk x02) None
  /\ UnplayedBufferSize (w_player overtaken) < max8
  /\ buf (w_player overtaken) = replicate 4 x01
  /\ remaining (src (w_player overtaken)) = replicate 8 x03
  /\ exists w',
       run max8 [OpPlay 2; OpLoopStore] overtaken = Some w'
       /\ stream overtaken
          = replicate 4 x01 ++ replicate loopChunk x02 ++ replicate 8 x03
       /\ buf (w_player w')
          = replicate 4 x01 ++ replicate 8 x03 ++ replicate loopChunk x02
       /\ remaining (src (w_player w')) = []
       /\ state (w_player w') = playerPlay.
Proof.
  assert (UnplayedBufferSize (w_player overtaken) < max8) as Hlt
    by (vm_compute; lia).
  assert (w_loop overtaken = LoopGot (replicate loopChunk x02) None) as Hpc
    by (vm_compute; reflexivity).
  split; [exact reachable_overtaken|].
  do 3 (split; [reflexivity|]). split; [exact Hpc|]. split; [exact Hlt|].
  do 2 (split; [reflexivity|]).
  destruct (Play_overtakes_chunk_in_flight max8 overtaken (replicate loopChunk x02)
              eq_refl eq_refl eq_refl Hpc Hlt) as (w' & E & Hst & Hb & Hrest & Hs).
  exists w'. split; [exact E|]. split; [exact Hst|].
  split; [exact Hb|]. split; [exact Hrest|exact Hs].
Defined.

(** [Reset] and [Play] on the paused player. *)
Lemma Reset_then_Play_goes_on_in_the_source_witness :
  state (w_player resumed) <> playerClosed
  /\ Err (w_player resumed) = None
  /\ exists w',
       run max8 [OpReset; OpPlay 2] resumed = Some w'
       /\ buf (w_player w') = drop 8 pcm16.
Proof.
  assert (state (w_player resumed) <> playerClosed) as Hs
    by (vm_compute; discriminate).
  split; [exact Hs|]. split; [reflexivity|].
  destruct (Reset_then_Play_goes_on_in_the_source max8 resumed Hs eq_refl)
    as (w' & E & Hb & _).
  exists w'. split; [exact E|]. rewrite Hb. reflexivity.
Defined.
